(** * MenuLens: order ledger, bill splitter, menu filters and persistence

    A shallow embedding of the locally implemented logic of the MenuLens
    client (App.tsx, components/OrderModal.tsx, components/MenuGrid.tsx)
    together with the properties its design document states about it.

    Conventions of the embedding:
    - an ECMAScript [Map<string, number>] is an insertion-ordered association
      list with one entry per key ([JsMap]);
    - order quantities and deltas are integers ([Z]): the interface only
      ever passes +1 and -1;
    - a string is a sequence of bytes; the characters the code looks for
      (digits, the point, the space) are ASCII;
    - prices and bill amounts are exact rationals ([Q]); the bill splitter is
      written once over an arithmetic interface and is also run on binary64
      floats;
    - React state is a record, a handler is a state transformer, and the
      persistence effects run in a small state-and-exception monad;
    - the storage slot holds whatever was put there: text that is not JSON,
      [null], or an object whose [menuItems] need not be an array of dishes
      and whose [order] need not be a list of entries. The other payloads
      are kept well typed: the load effect looks only at the truthiness of
      the two names and passes the entries of [order] to [new Map] as they
      are. *)

From Stdlib Require Import List String Ascii Bool ZArith QArith Lia Lqa Floats Permutation Sorted.
Import ListNotations.
Local Open Scope Z_scope.

(* ===================================================================== *)
(** * Definitions *)
(* ===================================================================== *)

(** ** Map<string, number> *)

Module JsMap.

Definition t : Type := list (string * Z).

Definition empty : t := [].

Definition keys (m : t) : list string := map fst m.

(** [Map.prototype.values()], in insertion order. *)
Definition values (m : t) : list Z := map snd m.

(** [Map.prototype.entries()], in insertion order. *)
Definition entries (m : t) : list (string * Z) := m.

(** [Map.prototype.get]: [None] is [undefined]. *)
Fixpoint get (k : string) (m : t) : option Z :=
  match m with
  | [] => None
  | (k', v) :: m' => if String.eqb k' k then Some v else get k m'
  end.

(** [Map.prototype.set]: an existing key keeps its position, a new key is
    appended. *)
Fixpoint set (k : string) (v : Z) (m : t) : t :=
  match m with
  | [] => [(k, v)]
  | (k', v') :: m' =>
      if String.eqb k' k then (k, v) :: m' else (k', v') :: set k v m'
  end.

(** [Map.prototype.delete]. *)
Fixpoint delete (k : string) (m : t) : t :=
  match m with
  | [] => []
  | (k', v') :: m' =>
      if String.eqb k' k then delete k m' else (k', v') :: delete k m'
  end.

(** [new Map(iterable)]: the entries are [set] one after the other. *)
Definition of_entries (l : list (string * Z)) : t :=
  fold_left (fun m e => set (fst e) (snd e) m) l empty.

(** The representation invariant of a Map: one entry per key. *)
Definition wf (m : t) : Prop := NoDup (keys m).

End JsMap.

(** ** The order ledger (App.tsx) *)

(** [x || 0] on [number | undefined]. *)
Definition or_zero (o : option Z) : Z :=
  match o with
  | Some q => if q =? 0 then 0 else q
  | None => 0
  end.

(** The updater passed to [setOrder] by [handleUpdateOrder] (App.tsx). *)
Definition handleUpdateOrder (name : string) (delta : Z) (prev : JsMap.t) : JsMap.t :=
  let next := JsMap.of_entries (JsMap.entries prev) in
  let currentQty := or_zero (JsMap.get name next) in
  let qty := currentQty + delta in
  if qty <=? 0 then JsMap.delete name next else JsMap.set name qty next.

(** The same updater as the longer variant of App.tsx writes it, with
    [Math.max(0, ...)] and a test against [0]. *)
Definition handleUpdateOrder_max (originalName : string) (delta : Z) (prev : JsMap.t) : JsMap.t :=
  let newOrder := JsMap.of_entries (JsMap.entries prev) in
  let currentQty := or_zero (JsMap.get originalName newOrder) in
  let newQty := Z.max 0 (currentQty + delta) in
  if newQty =? 0 then JsMap.delete originalName newOrder
  else JsMap.set originalName newQty newOrder.

(** [order.get(name) || 0], the quantity shown for a dish (MenuGrid.tsx). *)
Definition quantity (name : string) (order : JsMap.t) : Z :=
  or_zero (JsMap.get name order).

(** [totalItems]: [Array.from(order.values()).reduce((a, b) => a + b, 0)]. *)
Definition totalItems (order : JsMap.t) : Z :=
  fold_left (fun a b => a + b) (JsMap.values order) 0.

(** A sequence of [adjust(id, delta)] calls, applied in order. *)
Definition apply_calls (calls : list (string * Z)) (order : JsMap.t) : JsMap.t :=
  fold_left (fun m c => handleUpdateOrder (fst c) (snd c) m) calls order.

(** The deltas of the calls that name [id], in call order. *)
Definition deltas_for (id : string) (calls : list (string * Z)) : list Z :=
  map snd (filter (fun c => String.eqb (fst c) id) calls).

Definition sum_deltas (ds : list Z) : Z := fold_right Z.add 0 ds.

(** The running total that is floored at zero after every call. *)
Definition clamped_sum (ds : list Z) (start : Z) : Z :=
  fold_left (fun q d => Z.max 0 (q + d)) ds start.

(** No prefix of the deltas sums to less than zero. *)
Fixpoint prefixes_nonneg (acc : Z) (ds : list Z) : Prop :=
  match ds with
  | [] => True
  | d :: ds' => 0 <= acc + d /\ prefixes_nonneg (acc + d) ds'
  end.

(** Ledger invariant: no stored quantity is zero or negative. *)
Definition positive_entries (m : JsMap.t) : Prop :=
  Forall (fun e => 0 < snd e) m.

(** The calls the interface can issue: the plus button adds one; the minus
    button is only rendered for a dish whose quantity is positive
    (MenuGrid.tsx, and the lines of the order summary). *)
Fixpoint offered_calls (calls : list (string * Z)) (order : JsMap.t) : Prop :=
  match calls with
  | [] => True
  | c :: calls' =>
      (snd c = 1 \/ (snd c = -1 /\ 0 < quantity (fst c) order))
      /\ offered_calls calls' (handleUpdateOrder (fst c) (snd c) order)
  end.

(** ** Dishes (types.ts) *)

Record MenuItem : Type := {
  originalName : string;
  translatedName : string;
  description : string;
  translatedDescription : string;
  price : option string;
  category : option string;
  tags : option (list string)
}.

(** Truthiness of an optional string: [undefined] and [""] are falsy. *)
Definition truthy (o : option string) : bool :=
  match o with
  | Some EmptyString => false
  | Some _ => true
  | None => false
  end.

(** ** Price strings (OrderModal.tsx) *)

(** [\d] *)
Definition is_digit (c : ascii) : bool :=
  let n := N_of_ascii c in ((48 <=? n) && (n <=? 57))%N.

Definition is_dot (c : ascii) : bool := Ascii.eqb c "."%char.

Definition is_space (c : ascii) : bool := Ascii.eqb c " "%char.

(** [\d*]: the longest prefix of digits, and what follows it. *)
Fixpoint digits_prefix (s : string) : string :=
  match s with
  | String c s' => if is_digit c then String c (digits_prefix s') else EmptyString
  | EmptyString => EmptyString
  end.

Fixpoint drop_digits (s : string) : string :=
  match s with
  | String c s' => if is_digit c then drop_digits s' else s
  | EmptyString => EmptyString
  end.

(** The pattern [\d+\.?\d*] of [cartTotal], tried at the first position of [s]. Every quantifier is
    greedy and nothing follows [\d*], so no backtracking changes the match. *)
Definition match_here (s : string) : option string :=
  match digits_prefix s with
  | EmptyString => None
  | ip =>
      match drop_digits s with
      | String c rest =>
          if is_dot c then Some (ip ++ String c (digits_prefix rest))%string
          else Some ip
      | EmptyString => Some ip
      end
  end.

(** [price.match(pattern)]: the match of the leftmost position at which
    the pattern matches; [None] is [null]. The result is [match[0]]. *)
Fixpoint regex_match (s : string) : option string :=
  match match_here s with
  | Some m => Some m
  | None =>
      match s with
      | String _ s' => regex_match s'
      | EmptyString => None
      end
  end.

Definition digit_value (c : ascii) : Z := Z.of_N (N_of_ascii c) - 48.

(** The integer a string of digits denotes. *)
Definition digits_value (s : string) : Z :=
  fold_left (fun acc c => 10 * acc + digit_value c) (list_ascii_of_string s) 0.

(** [parseFloat] on the texts the pattern produces: digits, optionally
    followed by a point and further digits. The value is the exact decimal. *)
Definition parseFloat (s : string) : Q :=
  let ip := digits_prefix s in
  let fp :=
    match drop_digits s with
    | String c rest => if is_dot c then digits_prefix rest else EmptyString
    | EmptyString => EmptyString
    end in
  (inject_Z (digits_value ip)
   + Qmake (digits_value fp) (Z.to_pos (10 ^ Z.of_nat (String.length fp))))%Q.

(** [match ? parseFloat(match[0]) : 0], with [match] the result of [regex_match]. *)
Definition price_value (p : string) : Q :=
  match regex_match p with
  | Some m => parseFloat m
  | None => 0%Q
  end.

(** [price.replace(/\d|\.| /g, '')]. *)
Fixpoint strip_price (p : string) : string :=
  match p with
  | String c p' =>
      if is_digit c || is_dot c || is_space c then strip_price p'
      else String c (strip_price p')
  | EmptyString => EmptyString
  end.

(** [x || '$'] on [string | undefined]. *)
Definition or_dollar (o : option string) : string :=
  match o with
  | Some EmptyString => "$"
  | Some s => s
  | None => "$"
  end.

(** ** The order summary (OrderModal.tsx) *)

(** [menuItems.find(m => m.originalName === name)]. *)
Definition find_item (name : string) (menuItems : list MenuItem) : option MenuItem :=
  find (fun m => String.eqb (originalName m) name) menuItems.

Record CartItem : Type := {
  item : option MenuItem;
  qty : Z;
  name : string
}.

Definition resolved (i : CartItem) : bool :=
  match item i with Some _ => true | None => false end.

(** The object [cartItems] builds for the entry [[name, qty]]. *)
Definition cart_line (menuItems : list MenuItem) (e : string * Z) : CartItem :=
  {| item := find_item (fst e) menuItems; qty := snd e; name := fst e |}.

(** [cartItems]: the entries of the order, each with its dish, those without
    a dish in the menu filtered out. *)
Definition cartItems (order : JsMap.t) (menuItems : list MenuItem) : list CartItem :=
  filter resolved (map (cart_line menuItems) (JsMap.entries order)).

(** The reducer of [cartTotal]. *)
Definition add_line (sum : Q) (i : CartItem) : Q :=
  match item i with
  | Some it =>
      if truthy (price it) then
        match price it with
        | Some p => (sum + price_value p * inject_Z (qty i))%Q
        | None => sum
        end
      else sum
  | None => sum
  end.

Definition cartTotal (order : JsMap.t) (menuItems : list MenuItem) : Q :=
  fold_left add_line (cartItems order menuItems) 0%Q.

(** [cartItems[0]?.item?.price?.replace(/\d|\.| /g, '') || '$']. *)
Definition currencySymbol (order : JsMap.t) (menuItems : list MenuItem) : string :=
  or_dollar
    match cartItems order menuItems with
    | i :: _ =>
        match item i with
        | Some it => option_map strip_price (price it)
        | None => None
        end
    | [] => None
    end.

(** The longer variant of App.tsx computes the footer's total and symbol
    itself, straight from the order and the menu. *)
Definition App_totalPrice (order : JsMap.t) (menuItems : list MenuItem) : Q :=
  fold_left
    (fun sum e =>
       match find_item (fst e) menuItems with
       | Some it =>
           if truthy (price it) then
             match price it with
             | Some p => (sum + price_value p * inject_Z (snd e))%Q
             | None => sum
             end
           else sum
       | None => sum
       end)
    (JsMap.entries order) 0%Q.

(** [menuItems.find(m => m.price)?.price?.replace(/\d|\.| /g, '') || '$']. *)
Definition App_currencySymbol (menuItems : list MenuItem) : string :=
  or_dollar
    match find (fun m => truthy (price m)) menuItems with
    | Some it => option_map strip_price (price it)
    | None => None
    end.

(** ** The bill splitter (OrderModal.tsx) *)

(** The arithmetic the splitter uses on ECMAScript numbers. *)
Class Number (N : Type) : Type := {
  num_add : N -> N -> N;
  num_mul : N -> N -> N;
  num_div : N -> N -> N;
  Math_max : N -> N -> N;
  lit : Z -> N
}.

(** Exact rational arithmetic. *)
#[export] Instance Number_Q : Number Q := {|
  num_add := Qplus;
  num_mul := Qmult;
  num_div := Qdiv;
  Math_max := fun a b => if Qle_bool a b then b else a;
  lit := inject_Z
|}.

(** IEEE 754 binary64, the numbers ECMAScript computes with. *)
#[export] Instance Number_float : Number float := {|
  num_add := PrimFloat.add;
  num_mul := PrimFloat.mul;
  num_div := PrimFloat.div;
  Math_max := fun a b =>
    if PrimFloat.is_nan a then a
    else if PrimFloat.is_nan b then b
    else if PrimFloat.ltb a b then b else a;
  lit := fun z => PrimFloat.of_uint63 (Uint63.of_Z z)
|}.

Record Bill (N : Type) : Type := {
  tipAmount : N;
  finalTotal : N;
  splitBy : N;
  perPersonTotal : N;
  perPersonBill : N;
  perPersonTip : N
}.

Arguments tipAmount {N} _.
Arguments finalTotal {N} _.
Arguments splitBy {N} _.
Arguments perPersonTotal {N} _.
Arguments perPersonBill {N} _.
Arguments perPersonTip {N} _.

(** "Bill Calculations" and "Per Person Breakdown". *)
Definition bill {N : Type} `{Number N} (billBase tipPercent splitCount : N) : Bill N :=
  let tipAmount := num_mul billBase (num_div tipPercent (lit 100)) in
  let finalTotal := num_add billBase tipAmount in
  let splitBy := Math_max (lit 1) splitCount in
  let perPersonTotal := num_div finalTotal splitBy in
  let perPersonBill := num_div billBase splitBy in
  let perPersonTip := num_div tipAmount splitBy in
  {| tipAmount := tipAmount;
     finalTotal := finalTotal;
     splitBy := splitBy;
     perPersonTotal := perPersonTotal;
     perPersonBill := perPersonBill;
     perPersonTip := perPersonTip |}.

(** ** Filters of the menu grid (MenuGrid.tsx) *)

Record ActiveFilters : Type := {
  vegetarian : bool;
  nutAllergy : bool;
  noPork : bool;
  spicy : bool
}.

(** [item.tags?.includes(tag)]; [undefined] counts as [false]. *)
Definition hasTag (dish : MenuItem) (tag : string) : bool :=
  match tags dish with
  | Some ts => existsb (String.eqb tag) ts
  | None => false
  end.

Record Card : Type := {
  isDimmed : bool;
  showNutWarning : bool;
  showPorkWarning : bool;
  isUnsafe : bool;
  highlightSpicy : bool;
  (** the text of the "Warning Overlay", when it is rendered *)
  warningOverlay : option string
}.

(** "Logic for visual alerts", for one dish. *)
Definition card (activeFilters : ActiveFilters) (dish : MenuItem) : Card :=
  let isVeg := hasTag dish "Vegetarian" || hasTag dish "Vegan" in
  let hasNuts := hasTag dish "Contains Nuts" in
  let hasPork := hasTag dish "Contains Pork" in
  let isSpicy := hasTag dish "Spicy" in
  let isDimmed := vegetarian activeFilters && negb isVeg in
  let showNutWarning := nutAllergy activeFilters && hasNuts in
  let showPorkWarning := noPork activeFilters && hasPork in
  let isUnsafe := showNutWarning || showPorkWarning in
  let highlightSpicy := spicy activeFilters && isSpicy in
  {| isDimmed := isDimmed;
     showNutWarning := showNutWarning;
     showPorkWarning := showPorkWarning;
     isUnsafe := isUnsafe;
     highlightSpicy := highlightSpicy;
     warningOverlay :=
       if isUnsafe
       then Some (if showNutWarning then "CONTAINS NUTS" else "CONTAINS PORK")%string
       else None |}.

(** The tag set of a dish: a dish without [tags] has none. *)
Definition has_tag (dish : MenuItem) (tag : string) : Prop :=
  match tags dish with
  | Some ts => In tag ts
  | None => False
  end.

(** ** Application state and persistence (App.tsx) *)

Module App.

Inductive AppState : Type :=
| UPLOAD
| PROCESSING_MENU
| MENU_VIEW
| RECOMMENDATION_VIEW.

(** *** What the storage slot can hold

    The slot ['menuLensState'] holds text. [JSON.parse] either rejects it or
    yields a value, of which the load effect reads four members. The value
    is kept at that granularity:
    - a member is [None] when it is missing or holds a falsy value
      ([null], [0], [false], [""]); for [menuItems], also when it holds
      something whose [length] is missing or falsy, other than the empty
      array;
    - [menuItems] holds either an array of dishes or anything else with a
      truthy [length]: nothing checks what the slot holds, and the load
      effect reads only [menuItems?.length];
    - [order] holds either an array of [[identity, quantity]] pairs or
      something [new Map] rejects (a number, a plain object, an array of
      non-pairs);
    - a number, boolean, string or array at top level has none of the four
      members and is the object with every member [None]. *)

(** A value of [menuItems], in the slot or in the React state, which is
    typed [MenuItem[]] but holds whatever the load effect installs.
    [NotDishes text length_positive] is a value with a truthy [length] that
    is not an array of dishes (a string such as ["abc"], an object such as
    [{length: 2}], an array of other things such as [[{}]]): [text] is its
    JSON text, and [length_positive] is what [length > 0] evaluates to. *)
Inductive MenuItemsValue : Type :=
| Dishes (l : list MenuItem)
| NotDishes (text : string) (length_positive : bool).

(** [v.length] as a condition. *)
Definition length_truthy (v : MenuItemsValue) : bool :=
  match v with
  | Dishes [] => false
  | Dishes (_ :: _) => true
  | NotDishes _ _ => true
  end.

(** [v.length > 0]. *)
Definition length_positive (v : MenuItemsValue) : bool :=
  match v with
  | Dishes l => (0 <? List.length l)%nat
  | NotDishes _ b => b
  end.

(** The dishes of a value: none when it is not an array of dishes. *)
Definition dishes (v : MenuItemsValue) : list MenuItem :=
  match v with
  | Dishes l => l
  | NotDishes _ _ => []
  end.

Inductive OrderMember : Type :=
| OrderEntries (l : list (string * Z))
| NotIterable.

Record Stored : Type := {
  menuItems_member : option MenuItemsValue;
  restaurantName_member : option string;
  restaurantLocation_member : option string;
  order_member : option OrderMember
}.

Inductive Json : Type :=
| JNull
| JObject (o : Stored).

Inductive SlotText : Type :=
| EmptyText                (* the empty string *)
| NotJson                  (* text that JSON.parse rejects *)
| JsonText (v : Json).     (* text that JSON.parse reads as v *)

(** *** React state, the slot, and a record of every [setItem]

    [menuItems_state] is the state variable [menuItems]: declared
    [MenuItem[]], it holds what [setMenuItems] was given, which after a load
    can be any value with a truthy [length]. [menuItems] below is its list
    of dishes. *)

Record t : Type := {
  appState : AppState;
  menuItems_state : MenuItemsValue;
  restaurantName : string;
  restaurantLocation : string;
  order : JsMap.t;
  localStorage : option SlotText;
  setItem_calls : list Stored
}.

(** The dishes of the state variable [menuItems]. *)
Definition menuItems (st : t) : list MenuItem := dishes (menuItems_state st).

(** The state of the first render, over whatever the slot holds. *)
Definition initial (slot : option SlotText) : t := {|
  appState := UPLOAD;
  menuItems_state := Dishes [];
  restaurantName := "";
  restaurantLocation := "";
  order := JsMap.of_entries [];
  localStorage := slot;
  setItem_calls := []
|}.

(** *** Effects: state passing with exceptions

    A state update made before a [throw] stays made, as an update queued by a
    React setter does. *)

Inductive Exn : Type := SyntaxError | TypeError.

Inductive Completion (A : Type) : Type :=
| Normal (a : A)
| Throw (e : Exn).

Arguments Normal {A} a.
Arguments Throw {A} e.

Definition Eff (A : Type) : Type := t -> Completion A * t.

Definition ret {A : Type} (a : A) : Eff A := fun st => (Normal a, st).

Definition bind {A B : Type} (c : Eff A) (k : A -> Eff B) : Eff B :=
  fun st =>
    match c st with
    | (Normal a, st') => k a st'
    | (Throw e, st') => (Throw e, st')
    end.

Definition throw {A : Type} (e : Exn) : Eff A := fun st => (Throw e, st).

Definition try_catch (body : Eff unit) (handler : Exn -> Eff unit) : Eff unit :=
  fun st =>
    match body st with
    | (Normal a, st') => (Normal a, st')
    | (Throw e, st') => handler e st'
    end.

Declare Scope eff_scope.
Delimit Scope eff_scope with eff.
Notation "x <- c ;; k" := (bind c (fun x => k))
  (at level 61, c at next level, right associativity) : eff_scope.
Notation "c ;; k" := (bind c (fun _ => k))
  (at level 61, right associativity) : eff_scope.
Local Open Scope eff_scope.

Definition exec {A : Type} (c : Eff A) (st : t) : t := snd (c st).

Definition get_state : Eff t := fun st => (Normal st, st).

Definition setAppState (a : AppState) : Eff unit := fun st =>
  (Normal tt,
   {| appState := a; menuItems_state := menuItems_state st; restaurantName := restaurantName st;
      restaurantLocation := restaurantLocation st; order := order st;
      localStorage := localStorage st; setItem_calls := setItem_calls st |}).

Definition setMenuItems (v : MenuItemsValue) : Eff unit := fun st =>
  (Normal tt,
   {| appState := appState st; menuItems_state := v; restaurantName := restaurantName st;
      restaurantLocation := restaurantLocation st; order := order st;
      localStorage := localStorage st; setItem_calls := setItem_calls st |}).

Definition setRestaurantName (n : string) : Eff unit := fun st =>
  (Normal tt,
   {| appState := appState st; menuItems_state := menuItems_state st; restaurantName := n;
      restaurantLocation := restaurantLocation st; order := order st;
      localStorage := localStorage st; setItem_calls := setItem_calls st |}).

Definition setRestaurantLocation (l : string) : Eff unit := fun st =>
  (Normal tt,
   {| appState := appState st; menuItems_state := menuItems_state st; restaurantName := restaurantName st;
      restaurantLocation := l; order := order st;
      localStorage := localStorage st; setItem_calls := setItem_calls st |}).

(** [setOrder(prev => f(prev))]; [setOrder(m)] is [setOrder (fun _ => m)]. *)
Definition setOrder (f : JsMap.t -> JsMap.t) : Eff unit := fun st =>
  (Normal tt,
   {| appState := appState st; menuItems_state := menuItems_state st; restaurantName := restaurantName st;
      restaurantLocation := restaurantLocation st; order := f (order st);
      localStorage := localStorage st; setItem_calls := setItem_calls st |}).

(** [localStorage.getItem('menuLensState')]; [None] is [null]. *)
Definition localStorage_getItem : Eff (option SlotText) :=
  fun st => (Normal (localStorage st), st).

(** [localStorage.removeItem('menuLensState')]. *)
Definition localStorage_removeItem : Eff unit := fun st =>
  (Normal tt,
   {| appState := appState st; menuItems_state := menuItems_state st; restaurantName := restaurantName st;
      restaurantLocation := restaurantLocation st; order := order st;
      localStorage := None; setItem_calls := setItem_calls st |}).

(** [localStorage.setItem('menuLensState', JSON.stringify(o))]. *)
Definition localStorage_setItem (o : Stored) : Eff unit := fun st =>
  (Normal tt,
   {| appState := appState st; menuItems_state := menuItems_state st; restaurantName := restaurantName st;
      restaurantLocation := restaurantLocation st; order := order st;
      localStorage := Some (JsonText (JObject o));
      setItem_calls := setItem_calls st ++ [o] |}).

(** [JSON.parse(saved)]. *)
Definition JSON_parse (saved : SlotText) : Eff Json :=
  match saved with
  | JsonText v => ret v
  | EmptyText | NotJson => throw SyntaxError
  end.

(** Reading a member of [parsed]: a [TypeError] on [null]. *)
Definition members (parsed : Json) : Eff Stored :=
  match parsed with
  | JObject o => ret o
  | JNull => throw TypeError
  end.

(** [new Map(parsed.order)]. *)
Definition new_Map (o : OrderMember) : Eff JsMap.t :=
  match o with
  | OrderEntries l => ret (JsMap.of_entries l)
  | NotIterable => throw TypeError
  end.

(** [x || ''] on [string | undefined]. *)
Definition or_empty (o : option string) : string :=
  match o with Some s => s | None => "" end.

(** The first effect of [App]: restore a saved session on mount. *)
Definition load_effect : Eff unit :=
  saved <- localStorage_getItem ;;
  match saved with
  | None | Some EmptyText => ret tt
  | Some text =>
      try_catch
        (parsed <- JSON_parse text ;;
         o <- members parsed ;;
         match menuItems_member o with
         | Some items =>
             if length_truthy items
             then
               setMenuItems items ;;
               setRestaurantName (or_empty (restaurantName_member o)) ;;
               setRestaurantLocation (or_empty (restaurantLocation_member o)) ;;
               match order_member o with
               | Some entries => m <- new_Map entries ;; setOrder (fun _ => m)
               | None => ret tt
               end ;;
               setAppState MENU_VIEW
             else ret tt
         | None => ret tt
         end)
        (fun _ => localStorage_removeItem)
  end.

(** The object handed to [JSON.stringify] by the second effect. *)
Definition snapshot (st : t) : Stored := {|
  menuItems_member := Some (menuItems_state st);
  restaurantName_member := Some (restaurantName st);
  restaurantLocation_member := Some (restaurantLocation st);
  order_member := Some (OrderEntries (JsMap.entries (order st)))
|}.

(** The second effect of [App]: save the session. *)
Definition save_effect : Eff unit :=
  st <- get_state ;;
  if length_positive (menuItems_state st)
  then localStorage_setItem (snapshot st)
  else ret tt.

(** *** Handlers *)

Record MenuAnalysisResult : Type := {
  result_restaurantName : string;
  items : list MenuItem
}.

Definition or_unknown (n : string) : string :=
  match n with EmptyString => "Unknown Restaurant" | _ => n end.

(** What the interface can make happen. [handleFileSelect] awaits the menu
    parser: it is entered at [FileSelected] and resumed at [MenuParsed] or
    [MenuParseFailed]. *)
Inductive Event : Type :=
| FileSelected
| MenuParsed (result : MenuAnalysisResult)
| MenuParseFailed
| UpdateOrder (name : string) (delta : Z)
| NewScan
| RestaurantSaved (n l : string)
| ShowRecommendations
| BackToMenu.

Definition handler (e : Event) : Eff unit :=
  match e with
  | FileSelected => setAppState PROCESSING_MENU
  | MenuParsed result =>
      setMenuItems (Dishes (items result)) ;;
      setRestaurantName (or_unknown (result_restaurantName result)) ;;
      setOrder (fun _ => JsMap.of_entries []) ;;
      setAppState MENU_VIEW
  | MenuParseFailed => setAppState UPLOAD
  | UpdateOrder name delta => setOrder (handleUpdateOrder name delta)
  | NewScan =>
      localStorage_removeItem ;;
      setMenuItems (Dishes []) ;;
      setAppState UPLOAD
  | RestaurantSaved n l => setRestaurantName n ;; setRestaurantLocation l
  | ShowRecommendations => setAppState RECOMMENDATION_VIEW
  | BackToMenu => setAppState MENU_VIEW
  end.

(** Whether a handler sets one of the dependencies of the save effect
    ([menuItems], [restaurantName], [restaurantLocation], [order]). *)
Definition sets_dependency (e : Event) : bool :=
  match e with
  | MenuParsed _ | UpdateOrder _ _ | NewScan | RestaurantSaved _ _ => true
  | FileSelected | MenuParseFailed | ShowRecommendations | BackToMenu => false
  end.

(** One event: the handler, then the render's save effect. *)
Definition step (e : Event) (st : t) : t :=
  exec (handler e ;; if sets_dependency e then save_effect else ret tt) st.

(** Mounting runs the load effect; the save effect follows. *)
Definition mount (slot : option SlotText) : t :=
  exec (load_effect ;; save_effect) (initial slot).

Definition run (slot : option SlotText) (events : list Event) : t :=
  fold_left (fun st e => step e st) events (mount slot).

(** The states the application can be in. *)
Definition reachable (st : t) : Prop :=
  exists slot events, st = run slot events.

(** [load()] as the design document has it: the load effect on a fresh
    application, with what it reports. *)
Definition load (slot : option SlotText) : Completion unit * t :=
  load_effect (initial slot).

Definition no_prior_session (st : t) : Prop :=
  appState st = UPLOAD /\ menuItems_state st = Dishes [].

End App.

(** ** Vocabulary of the design document *)

Definition all_digits (s : string) : Prop :=
  Forall (fun c => is_digit c = true) (list_ascii_of_string s).

Definition no_digit (s : string) : Prop :=
  Forall (fun c => is_digit c = false) (list_ascii_of_string s).

Definition begins_with (p : ascii -> bool) (s : string) : Prop :=
  match s with
  | String c _ => p c = true
  | EmptyString => False
  end.

(** The text of a run: digits [ip], then, if [pt], a decimal point and the
    digits [fp]. *)
Definition run_text (ip : string) (pt : bool) (fp : string) : string :=
  (ip ++ (if pt then String "."%char fp else EmptyString))%string.

(** "The first contiguous run of digits with at most one decimal point" of
    [s]: no digit comes before it, it starts with a digit, and it cannot be
    extended to the right. *)
Definition first_numeric_run (s ip : string) (pt : bool) (fp : string) : Prop :=
  exists pre post : string,
    s = (pre ++ run_text ip pt fp ++ post)%string
    /\ no_digit pre
    /\ ip <> EmptyString /\ all_digits ip /\ all_digits fp
    /\ ~ begins_with is_digit post
    /\ (pt = false -> fp = EmptyString /\ ~ begins_with is_dot post).

(** The number a run denotes. *)
Definition decimal_value (ip fp : string) : Q :=
  (inject_Z (digits_value ip)
   + inject_Z (digits_value fp) / inject_Z (10 ^ Z.of_nat (String.length fp)))%Q.

(** What one ledger entry adds to the total: its price times its quantity
    when its dish is on the menu and has a price, nothing otherwise. *)
Definition line_value (menuItems : list MenuItem) (e : string * Z) : Q :=
  match find_item (fst e) menuItems with
  | Some it =>
      match price it with
      | Some p => (price_value p * inject_Z (snd e))%Q
      | None => 0%Q
      end
  | None => 0%Q
  end.

Definition sum_of_lines (order : JsMap.t) (menuItems : list MenuItem) : Q :=
  fold_right (fun e acc => (line_value menuItems e + acc)%Q) 0%Q (JsMap.entries order).

(** The dishes of the display list, in order. *)
Definition displayed (order : JsMap.t) (menuItems : list MenuItem) : list MenuItem :=
  flat_map (fun i => match item i with Some it => [it] | None => [] end)
    (cartItems order menuItems).

(** The first dish that has a price. *)
Definition first_priced (dishes : list MenuItem) : option MenuItem :=
  find (fun m => truthy (price m)) dishes.

Definition price_of (o : option MenuItem) : option string :=
  match o with Some it => price it | None => None end.

(** ** Sample data *)

Definition dish (name : string) (p : option string) (ts : option (list string)) : MenuItem :=
  {| originalName := name; translatedName := name; description := "";
     translatedDescription := ""; price := p; category := None; tags := ts |}.

Definition pho : MenuItem := dish "Pho" (Some "12.50"%string) None.
Definition tea : MenuItem := dish "Tea" None None.
Definition smorrebrod : MenuItem := dish "Smorrebrod" (Some "45 kr"%string) None.
Definition pad_thai : MenuItem :=
  dish "Pad Thai" (Some "$11"%string) (Some ["Contains Nuts"; "Contains Pork"; "Spicy"]%string).
Definition curry : MenuItem :=
  dish "Curry" (Some "$9.50"%string) (Some ["Vegetarian"; "Spicy"]%string).

Definition in_category (c : string) (d : MenuItem) : MenuItem :=
  {| originalName := originalName d; translatedName := translatedName d;
     description := description d; translatedDescription := translatedDescription d;
     price := price d; category := Some c; tags := tags d |}.

(** A menu of two soups around a drink, a dish without category, and a set
    menu numbered 2. *)
Definition sample_menu : list MenuItem :=
  [in_category "Soups" pho; in_category "Drinks" tea; in_category "Soups" curry;
   smorrebrod; in_category "2" pad_thai]%string.

(** A stored object whose [menuItems] has a positive length. *)
Definition has_dishes (o : App.Stored) : Prop :=
  exists v, App.menuItems_member o = Some v /\ App.length_positive v = true.

(** What the slot may hold while the application runs over the initial
    content [slot]: nothing (erased), the initial content, or a saved
    snapshot with at least one dish. *)
Definition slot_content_ok (slot : option App.SlotText) (st : App.t) : Prop :=
  App.localStorage st = None
  \/ App.localStorage st = slot
  \/ exists o, App.localStorage st = Some (App.JsonText (App.JObject o)) /\ has_dishes o.

Definition persistence_invariant (slot : option App.SlotText) (st : App.t) : Prop :=
  Forall has_dishes (App.setItem_calls st) /\ slot_content_ok slot st.

(** A session with one dish ordered twice, and the content [{}]. *)
Definition pho_session : App.t := {|
  App.appState := App.MENU_VIEW;
  App.menuItems_state := App.Dishes [pho; tea];
  App.restaurantName := "Saigon";
  App.restaurantLocation := "";
  App.order := [("Tea", 1); ("Pho", 2)]%string;
  App.localStorage := None;
  App.setItem_calls := []
|}.

Definition empty_object : App.Stored := {|
  App.menuItems_member := None;
  App.restaurantName_member := None;
  App.restaurantLocation_member := None;
  App.order_member := None
|}.

(** The content [{"menuItems": "abc"}]: a string of length 3 where the
    dishes should be. *)
Definition abc_object : App.Stored := {|
  App.menuItems_member := Some (App.NotDishes "abc" true);
  App.restaurantName_member := None;
  App.restaurantLocation_member := None;
  App.order_member := None
|}.

(** ** Runs of the application from a given state *)

Definition run_from (events : list App.Event) (st : App.t) : App.t :=
  fold_left (fun st e => App.step e st) events st.

(** The slot holds the snapshot of the current state whenever there is a
    menu. *)
Definition in_sync (st : App.t) : Prop :=
  App.menuItems st <> [] ->
  App.localStorage st = Some (App.JsonText (App.JObject (App.snapshot st))).

(** ** The party size of the bill splitter (OrderModal.tsx) *)

(** The two buttons of "Split Bill". *)
Inductive SplitClick : Type :=
| FewerPeople     (* setSplitCount(Math.max(1, splitCount - 1)) *)
| MorePeople.     (* setSplitCount(splitCount + 1) *)

Definition click_split (splitCount : Z) (c : SplitClick) : Z :=
  match c with
  | FewerPeople => Z.max 1 (splitCount - 1)
  | MorePeople => splitCount + 1
  end.

(** [splitCount] after a series of clicks; it starts at [useState(1)]. *)
Definition splitCount_after (clicks : list SplitClick) : Z :=
  fold_left click_split clicks 1.

(** ** Grouping by category (MenuGrid.tsx) *)

(** [item.category || 'Other']. *)
Definition category_of (d : MenuItem) : string :=
  match category d with
  | Some EmptyString | None => "Other"
  | Some c => c
  end.

(** The own properties of [acc], in the order in which they were created. *)
Definition Groups : Type := list (string * list MenuItem).

Fixpoint own_property (cat : string) (acc : Groups) : option (list MenuItem) :=
  match acc with
  | [] => None
  | (c, ds) :: acc' => if String.eqb c cat then Some ds else own_property cat acc'
  end.

(** [acc[cat].push(item)] on an own property. *)
Fixpoint push_own (cat : string) (d : MenuItem) (acc : Groups) : Groups :=
  match acc with
  | [] => []
  | (c, ds) :: acc' =>
      if String.eqb c cat then (c, ds ++ [d]) :: acc' else (c, ds) :: push_own cat d acc'
  end.

Section Grouping.

(** The names [acc], an object literal, inherits from [Object.prototype]
    ([constructor], [toString], [__proto__], ...): [acc[name]] is then truthy
    without being an array. *)
Variable inherited : string -> bool.

(** The reducer of [grouped]. [None] is the [TypeError] of calling [push] on
    an inherited value. *)
Definition group_step (acc : option Groups) (d : MenuItem) : option Groups :=
  match acc with
  | None => None
  | Some g =>
      let cat := category_of d in
      match own_property cat g with
      | Some _ => Some (push_own cat d g)
      | None =>
          if inherited cat then None
          else Some (push_own cat d (g ++ [(cat, [])]))
      end
  end.

Definition grouped (items : list MenuItem) : option Groups :=
  fold_left group_step items (Some []).

End Grouping.

(** What a browser's [Object.prototype] defines. *)
Definition Object_prototype (k : string) : bool :=
  existsb (String.eqb k)
    ["constructor"; "__defineGetter__"; "__defineSetter__"; "hasOwnProperty";
     "__lookupGetter__"; "__lookupSetter__"; "isPrototypeOf"; "propertyIsEnumerable";
     "toString"; "valueOf"; "__proto__"; "toLocaleString"]%string.

(** An array index: the canonical decimal text of an integer below
    [2^32 - 1]. *)
Definition is_array_index (k : string) : bool :=
  match k with
  | EmptyString => false
  | String c rest =>
      String.eqb (digits_prefix k) k
      && (negb (Ascii.eqb c "0"%char) || String.eqb rest EmptyString)
      && (digits_value k <? 4294967295)
  end.

Fixpoint insert_by_index (e : string * list MenuItem) (l : Groups) : Groups :=
  match l with
  | [] => [e]
  | x :: l' =>
      if digits_value (fst e) <=? digits_value (fst x) then e :: l
      else x :: insert_by_index e l'
  end.

(** [Object.entries(grouped)]: the array indices in ascending order, then the
    other keys in the order of their creation. *)
Definition Object_entries (g : Groups) : Groups :=
  fold_right insert_by_index [] (filter (fun e => is_array_index (fst e)) g)
  ++ filter (fun e => negb (is_array_index (fst e))) g.

(** The categories of a menu in the order of their first dish. *)
Fixpoint first_seen (cats : list string) : list string :=
  match cats with
  | [] => []
  | c :: cats' => c :: filter (fun c' => negb (String.eqb c' c)) (first_seen cats')
  end.

Definition mem (c : string) (l : list string) : bool := existsb (String.eqb c) l.

(** The dishes of one category, in menu order. *)
Definition dishes_of (cat : string) (items : list MenuItem) : list MenuItem :=
  filter (fun d => String.eqb (category_of d) cat) items.

(** One section per category, in the order of first appearance, each with
    its dishes in menu order. *)
Definition sections_of (items : list MenuItem) : Groups :=
  map (fun c => (c, dishes_of c items)) (first_seen (map category_of items)).

(** ** Filter buttons, card border and tag badges (MenuGrid.tsx) *)

Inductive FilterType : Type :=
| vegetarian_filter
| nutAllergy_filter
| noPork_filter
| spicy_filter.

Definition FilterType_eqb (a b : FilterType) : bool :=
  match a, b with
  | vegetarian_filter, vegetarian_filter
  | nutAllergy_filter, nutAllergy_filter
  | noPork_filter, noPork_filter
  | spicy_filter, spicy_filter => true
  | _, _ => false
  end.

(** [prev[filter]]. *)
Definition filter_on (filter : FilterType) (prev : ActiveFilters) : bool :=
  match filter with
  | vegetarian_filter => vegetarian prev
  | nutAllergy_filter => nutAllergy prev
  | noPork_filter => noPork prev
  | spicy_filter => spicy prev
  end.

(** The updater of [toggleFilter]: [{ ...prev, [filter]: !prev[filter] }]. *)
Definition toggleFilter (filter : FilterType) (prev : ActiveFilters) : ActiveFilters :=
  match filter with
  | vegetarian_filter =>
      {| vegetarian := negb (vegetarian prev); nutAllergy := nutAllergy prev;
         noPork := noPork prev; spicy := spicy prev |}
  | nutAllergy_filter =>
      {| vegetarian := vegetarian prev; nutAllergy := negb (nutAllergy prev);
         noPork := noPork prev; spicy := spicy prev |}
  | noPork_filter =>
      {| vegetarian := vegetarian prev; nutAllergy := nutAllergy prev;
         noPork := negb (noPork prev); spicy := spicy prev |}
  | spicy_filter =>
      {| vegetarian := vegetarian prev; nutAllergy := nutAllergy prev;
         noPork := noPork prev; spicy := negb (spicy prev) |}
  end.

(** The filters of the first render. *)
Definition no_filters : ActiveFilters :=
  {| vegetarian := false; nutAllergy := false; noPork := false; spicy := false |}.

Definition filters_after (clicks : list FilterType) : ActiveFilters :=
  fold_left (fun prev filter => toggleFilter filter prev) clicks no_filters.

(** How often a button was pressed. *)
Definition presses (button : FilterType) (clicks : list FilterType) : nat :=
  List.length (filter (FilterType_eqb button) clicks).

(** The border classes of a card: red when unsafe, else orange when
    highlighted as spicy, else gray. *)
Inductive Border : Type := border_red | border_orange | border_gray.

Definition cardBorder (c : Card) : Border :=
  if isUnsafe c then border_red
  else if highlightSpicy c then border_orange
  else border_gray.

(** The badges [renderTags] can show, in the order in which it shows them. *)
Inductive Badge : Type := Veg | Spicy | Nuts | Seafood.

(** [renderTags(dish.tags)]: [None] is [null]. *)
Definition renderTags (ts : option (list string)) : option (list Badge) :=
  match ts with
  | None => None
  | Some ts =>
      Some ((if existsb (String.eqb "Vegetarian") ts then [Veg] else [])
            ++ (if existsb (String.eqb "Spicy") ts then [Spicy] else [])
            ++ (if existsb (String.eqb "Contains Nuts") ts then [Nuts] else [])
            ++ (if existsb (String.eqb "Contains Seafood") ts then [Seafood] else []))
  end.

Definition shows (b : Badge) (d : MenuItem) : Prop :=
  match renderTags (tags d) with
  | Some bs => In b bs
  | None => False
  end.

(** ** The data URL of the menu photo (geminiService.ts, parseMenuImage) *)

(** [[a-zA-Z]] *)
Definition is_letter (c : ascii) : bool :=
  let n := N_of_ascii c in
  (((65 <=? n) && (n <=? 90)) || ((97 <=? n) && (n <=? 122)))%N.

(** The longest prefix of characters satisfying [p], and what follows it. *)
Fixpoint prefix_while (p : ascii -> bool) (s : string) : string :=
  match s with
  | String c s' => if p c then String c (prefix_while p s') else EmptyString
  | EmptyString => EmptyString
  end.

Fixpoint drop_while (p : ascii -> bool) (s : string) : string :=
  match s with
  | String c s' => if p c then drop_while p s' else s
  | EmptyString => EmptyString
  end.

(** What follows the literal text [lit] at the start of [s], if [s] starts
    with it. *)
Fixpoint after_literal (lit s : string) : option string :=
  match lit, s with
  | EmptyString, _ => Some s
  | String c lit', String c' s' => if Ascii.eqb c c' then after_literal lit' s' else None
  | String _ _, EmptyString => None
  end.

(** The pattern of [mimeMatch], [^data:(image\/[a-zA-Z]+);base64,], on
    [base64Image]: the capture group and the text after the match. The
    letters are matched greedily; giving letters back cannot help, since the
    next character would be a letter where the pattern wants [;]. *)
Definition data_url_header (base64Image : string) : option (string * string) :=
  match after_literal "data:image/" base64Image with
  | Some r =>
      match prefix_while is_letter r with
      | EmptyString => None
      | letters =>
          match after_literal ";base64," (drop_while is_letter r) with
          | Some payload => Some (("image/" ++ letters)%string, payload)
          | None => None
          end
      end
  | None => None
  end.

(** [mimeMatch ? mimeMatch[1] : "image/jpeg"]. *)
Definition mimeType (base64Image : string) : string :=
  match data_url_header base64Image with
  | Some (mime, _) => mime
  | None => "image/jpeg"
  end.

(** [base64Image.replace(pattern, "")], the same pattern without the
    group. *)
Definition cleanBase64 (base64Image : string) : string :=
  match data_url_header base64Image with
  | Some (_, payload) => payload
  | None => base64Image
  end.

Definition all_letters (s : string) : Prop :=
  Forall (fun c => is_letter c = true) (list_ascii_of_string s).

(** [s] is a data URL of an image whose subtype is spelled with letters. *)
Definition image_data_url (s subtype payload : string) : Prop :=
  subtype <> EmptyString /\ all_letters subtype
  /\ s = ("data:image/" ++ subtype ++ ";base64," ++ payload)%string.

(** ** The links of a dish search (services/geminiService.ts, searchDishInfo) *)

Record GroundingSource : Type := {
  title : string;
  uri : string
}.

(** [chunk.web], with its optional members. *)
Record Web : Type := {
  web_title : option string;
  web_uri : option string
}.

(** [x || dflt] on [string | undefined]. *)
Definition or_text (dflt : string) (o : option string) : string :=
  match o with
  | Some EmptyString | None => dflt
  | Some s => s
  end.

(** The [forEach] over [groundingChunks]; a chunk is [None] when it has no
    [web]. *)
Definition push_sources (chunks : list (option Web)) : list GroundingSource :=
  fold_left
    (fun sources chunk =>
       match chunk with
       | Some w =>
           sources ++ [{| title := or_text "Source" (web_title w);
                          uri := or_text "#" (web_uri w) |}]
       | None => sources
       end)
    chunks [].

(** [Array.prototype.findIndex]; [None] is [-1]. *)
Fixpoint findIndex {A : Type} (p : A -> bool) (a : list A) : option nat :=
  match a with
  | [] => None
  | x :: a' => if p x then Some 0%nat else option_map S (findIndex p a')
  end.

(** [Array.prototype.filter] with a callback that looks at the index; [i] is
    the index of the head of [l]. *)
Fixpoint filter_from {A : Type} (f : A -> nat -> bool) (i : nat) (l : list A) : list A :=
  match l with
  | [] => []
  | x :: l' => if f x i then x :: filter_from f (S i) l' else filter_from f (S i) l'
  end.

(** [sources.filter((v, i, a) => a.findIndex(t => t.uri === v.uri) === i)]. *)
Definition uniqueSources (sources : list GroundingSource) : list GroundingSource :=
  filter_from
    (fun v i =>
       match findIndex (fun t => String.eqb (uri t) (uri v)) sources with
       | Some j => Nat.eqb j i
       | None => false
       end)
    0%nat sources.

(** [imageLinks: uniqueSources.slice(0, 5)]. *)
Definition imageLinks (chunks : list (option Web)) : list GroundingSource :=
  firstn 5 (uniqueSources (push_sources chunks)).

(** The first source of every address, in order. *)
Fixpoint first_of_each (l : list GroundingSource) : list GroundingSource :=
  match l with
  | [] => []
  | v :: l' => v :: filter (fun t => negb (String.eqb (uri t) (uri v))) (first_of_each l')
  end.

Definition has_uri (u : string) (l : list GroundingSource) : bool :=
  existsb (fun t => String.eqb (uri t) u) l.

(** ** The price of one unit of a dish, as the order summary reads it *)

Definition unit_price (name : string) (menuItems : list MenuItem) : Q :=
  match find_item name menuItems with
  | Some it =>
      match price it with
      | Some p => price_value p
      | None => 0%Q
      end
  | None => 0%Q
  end.

(** A text that can stand before an amount: not empty, and free of digits,
    points and spaces. *)
Definition symbol_like (s : string) : Prop :=
  s <> EmptyString
  /\ Forall (fun c => is_digit c || is_dot c || is_space c = false) (list_ascii_of_string s).

(** ** Decimal notation and the price of an entry, on their own terms

    The words of the design document about prices and catalog lookup, stated
    without the functions that model the code: the ten digits are listed
    with their values, a number is read by place value, and a dish is looked
    up by its place on the menu. *)

(** The ten digits, each with the number it stands for. *)
Definition decimal_digits : list (ascii * Z) :=
  [("0", 0); ("1", 1); ("2", 2); ("3", 3); ("4", 4);
   ("5", 5); ("6", 6); ("7", 7); ("8", 8); ("9", 9)]%char.

Definition numeral (c : ascii) : option Z :=
  option_map snd (find (fun d => Ascii.eqb (fst d) c) decimal_digits).

Definition is_numeral (c : ascii) : bool :=
  match numeral c with Some _ => true | None => false end.

Definition numeral_value (c : ascii) : Z :=
  match numeral c with Some d => d | None => 0 end.

Definition numerals_only (s : string) : Prop :=
  Forall (fun c => is_numeral c = true) (list_ascii_of_string s).

Definition numeral_free (s : string) : Prop :=
  Forall (fun c => is_numeral c = false) (list_ascii_of_string s).

Definition starts_with_numeral (s : string) : Prop :=
  match s with
  | String c _ => is_numeral c = true
  | EmptyString => False
  end.

Definition starts_with_point (s : string) : Prop :=
  match s with
  | String c _ => c = "."%char
  | EmptyString => False
  end.

(** The number a string of digits writes, by place value. *)
Fixpoint number_of (s : string) : Z :=
  match s with
  | EmptyString => 0
  | String c s' => numeral_value c * 10 ^ Z.of_nat (String.length s') + number_of s'
  end.

(** "The first contiguous run of digits with at most one decimal point" of
    [s]: the digits [ip], then, if [pt], a point and the digits [fp]. No
    digit comes before the run, it starts with a digit, and it cannot be
    extended to the right. *)
Definition numeric_run (s ip : string) (pt : bool) (fp : string) : Prop :=
  exists pre post : string,
    s = (pre ++ run_text ip pt fp ++ post)%string
    /\ numeral_free pre
    /\ ip <> EmptyString /\ numerals_only ip /\ numerals_only fp
    /\ ~ starts_with_numeral post
    /\ (pt = false -> fp = EmptyString /\ ~ starts_with_point post).

(** The number the run [ip.fp] writes. *)
Definition run_number (ip fp : string) : Q :=
  (inject_Z (number_of ip)
   + inject_Z (number_of fp) / inject_Z (10 ^ Z.of_nat (String.length fp)))%Q.

(** "The extracted numeric value" of a price string: the number of its
    first run, and 0 when it has no digit. *)
Definition extracted (p : string) (x : Q) : Prop :=
  (numeral_free p /\ (x == 0)%Q)
  \/ (exists ip pt fp, numeric_run p ip pt fp /\ (x == run_number ip fp)%Q).

(** "The dish resolves in the catalog": [it] is the first dish of the menu
    with the name [name]; and no dish has that name. *)
Definition resolves (menuItems : list MenuItem) (name : string) (it : MenuItem) : Prop :=
  exists pre post : list MenuItem,
    menuItems = pre ++ it :: post
    /\ originalName it = name
    /\ forall d, In d pre -> originalName d <> name.

Definition unresolved (menuItems : list MenuItem) (name : string) : Prop :=
  forall d, In d menuItems -> originalName d <> name.

(** What the entry [e] of the ledger contributes to the total: price times
    quantity when its dish resolves and has a price, nothing when the dish
    is missing or has no price. *)
Definition contributes (menuItems : list MenuItem) (e : string * Z) (v : Q) : Prop :=
  (exists it p x,
      resolves menuItems (fst e) it /\ price it = Some p
      /\ extracted p x /\ (v == x * inject_Z (snd e))%Q)
  \/ ((unresolved menuItems (fst e)
       \/ exists it, resolves menuItems (fst e) it /\ price it = None)
      /\ (v == 0)%Q).

Definition Qsum (l : list Q) : Q := fold_right Qplus 0%Q l.

(** ** The order of [Object.entries], on its own terms *)

(** An array index in the sense of the language standard: the canonical
    decimal text (digits only, no leading zero but for ["0"] itself) of an
    integer from 0 to [2^32 - 2]. *)
Definition array_index (k : string) : bool :=
  match k with
  | EmptyString => false
  | String c rest =>
      forallb is_numeral (list_ascii_of_string k)
      && (match numeral c with Some 0 => false | _ => true end
          || match rest with EmptyString => true | _ => false end)
      && (number_of k <? 2 ^ 32 - 1)
  end.

(** Sections in ascending order of the numbers their names write. *)
Definition ascending (l : Groups) : Prop :=
  StronglySorted (fun a b => number_of (fst a) <= number_of (fst b)) l.

(* ===================================================================== *)
(** * Properties *)
(* ===================================================================== *)

(** ** Map lemmas *)

Section JsMapFacts.

Import JsMap.

Lemma get_none_iff k m : get k m = None <-> ~ In k (keys m).
Proof.
  induction m as [|[k' v] m IH]; simpl.
  - tauto.
  - destruct (String.eqb_spec k' k) as [->|Hne].
    + split; [discriminate | tauto].
    + rewrite IH. tauto.
Qed.

Lemma get_set_eq k v m : get k (set k v m) = Some v.
Proof.
  induction m as [|[k' v'] m IH]; simpl.
  - now rewrite String.eqb_refl.
  - destruct (String.eqb_spec k' k) as [->|Hne]; simpl.
    + now rewrite String.eqb_refl.
    + apply String.eqb_neq in Hne. now rewrite Hne.
Qed.

Lemma get_set_ne k k' v m : k <> k' -> get k' (set k v m) = get k' m.
Proof.
  intros Hne. induction m as [|[k0 v0] m IH]; simpl.
  - apply String.eqb_neq in Hne. now rewrite Hne.
  - destruct (String.eqb_spec k0 k) as [->|Hk]; simpl.
    + apply String.eqb_neq in Hne. now rewrite Hne.
    + now rewrite IH.
Qed.

Lemma get_delete_eq k m : get k (delete k m) = None.
Proof.
  induction m as [|[k' v'] m IH]; simpl; [reflexivity|].
  destruct (String.eqb k' k) eqn:E; simpl; [assumption|].
  now rewrite E.
Qed.

Lemma get_delete_ne k k' m : k <> k' -> get k' (delete k m) = get k' m.
Proof.
  intros Hne. induction m as [|[k0 v0] m IH]; simpl; [reflexivity|].
  destruct (String.eqb_spec k0 k) as [->|Hk]; simpl.
  - apply String.eqb_neq in Hne. now rewrite Hne.
  - now rewrite IH.
Qed.

Lemma keys_set_fresh k v m : ~ In k (keys m) -> set k v m = m ++ [(k, v)].
Proof.
  induction m as [|[k' v'] m IH]; simpl; intros Hk; [reflexivity|].
  destruct (String.eqb_spec k' k) as [->|Hne]; [tauto|].
  rewrite IH; tauto.
Qed.

Lemma in_keys_set k k0 v m : In k0 (keys (set k v m)) <-> k0 = k \/ In k0 (keys m).
Proof.
  induction m as [|[k' v'] m IH]; simpl.
  - intuition congruence.
  - destruct (String.eqb_spec k' k) as [->|Hne]; simpl.
    + intuition congruence.
    + rewrite IH. intuition congruence.
Qed.

Lemma in_keys_delete k k0 m : In k0 (keys (delete k m)) <-> k0 <> k /\ In k0 (keys m).
Proof.
  induction m as [|[k' v'] m IH]; simpl.
  - tauto.
  - destruct (String.eqb_spec k' k) as [->|Hne]; simpl.
    + rewrite IH. intuition congruence.
    + rewrite IH. intuition congruence.
Qed.

Lemma wf_set k v m : wf m -> wf (set k v m).
Proof.
  unfold wf. induction m as [|[k' v'] m IH]; simpl; intros Hwf.
  - constructor; [tauto | constructor].
  - inversion Hwf as [|? ? Hnin Hnd]; subst.
    destruct (String.eqb_spec k' k) as [->|Hne]; simpl.
    + now constructor.
    + constructor; [|now apply IH].
      intros Hin. apply (in_keys_set k k' v m) in Hin. intuition congruence.
Qed.

Lemma wf_delete k m : wf m -> wf (delete k m).
Proof.
  unfold wf. induction m as [|[k' v'] m IH]; simpl; intros Hwf; [constructor|].
  inversion Hwf as [|? ? Hnin Hnd]; subst.
  destruct (String.eqb k' k); simpl; [now apply IH|].
  constructor; [|now apply IH].
  intros Hin. apply in_keys_delete in Hin. tauto.
Qed.

(** Re-inserting fresh, pairwise distinct keys appends them in order. *)
Lemma fold_set_fresh l : forall acc,
  NoDup (map fst l) ->
  (forall k, In k (map fst l) -> ~ In k (keys acc)) ->
  fold_left (fun m e => set (fst e) (snd e) m) l acc = acc ++ l.
Proof.
  induction l as [|[k v] l IH]; simpl; intros acc Hnd Hfresh.
  - now rewrite app_nil_r.
  - inversion Hnd as [|? ? Hnin Hnd']; subst.
    rewrite keys_set_fresh by (apply Hfresh; now left).
    rewrite IH; [now rewrite <- app_assoc | assumption |].
    intros k0 Hk0 Hin. unfold keys in Hin. rewrite map_app in Hin.
    apply in_app_or in Hin. destruct Hin as [Hin|Hin].
    + apply (Hfresh k0); [now right | exact Hin].
    + simpl in Hin. destruct Hin as [<-|[]]. contradiction.
Qed.

(** [new Map(m.entries())] on a Map gives back the same entries in the same
    order. *)
Lemma of_entries_entries m : wf m -> of_entries (entries m) = m.
Proof.
  intros Hwf. unfold of_entries, entries, empty.
  rewrite fold_set_fresh; [reflexivity | exact Hwf | intros ? _ []].
Qed.

End JsMapFacts.

(** ** The ledger under [handleUpdateOrder] *)

Section LedgerFacts.

Import JsMap.

Lemma get_some_in k q m : get k m = Some q -> In (k, q) m.
Proof.
  induction m as [|[k' v] m IH]; simpl; [discriminate|].
  destruct (String.eqb_spec k' k) as [->|Hne].
  - intros [= ->]. now left.
  - intros H. right. now apply IH.
Qed.

Lemma positive_set k v m :
  0 < v -> positive_entries m -> positive_entries (set k v m).
Proof.
  intros Hv. unfold positive_entries.
  induction m as [|[k' v'] m IH]; simpl; intros Hm.
  - now repeat constructor.
  - inversion Hm as [|? ? Hhd Htl]; subst.
    destruct (String.eqb k' k); constructor; auto.
Qed.

Lemma positive_delete k m : positive_entries m -> positive_entries (delete k m).
Proof.
  unfold positive_entries.
  induction m as [|[k' v'] m IH]; simpl; intros Hm; [constructor|].
  inversion Hm as [|? ? Hhd Htl]; subst.
  destruct (String.eqb k' k); [|constructor]; auto.
Qed.

(** On a Map, copying first changes nothing: the updater deletes the entry
    when the new quantity is not positive and sets it otherwise. *)
Lemma handleUpdateOrder_eq name delta m :
  wf m ->
  handleUpdateOrder name delta m =
    if quantity name m + delta <=? 0 then delete name m
    else set name (quantity name m + delta) m.
Proof.
  intros Hwf. unfold handleUpdateOrder, quantity.
  now rewrite of_entries_entries.
Qed.

Lemma handleUpdateOrder_wf name delta m :
  wf m -> wf (handleUpdateOrder name delta m).
Proof.
  intros Hwf. rewrite handleUpdateOrder_eq by assumption.
  destruct (_ <=? 0); [now apply wf_delete | now apply wf_set].
Qed.

Lemma handleUpdateOrder_positive name delta m :
  wf m -> positive_entries m -> positive_entries (handleUpdateOrder name delta m).
Proof.
  intros Hwf Hpos. rewrite handleUpdateOrder_eq by assumption.
  destruct (Z.leb_spec (quantity name m + delta) 0).
  - now apply positive_delete.
  - now apply positive_set.
Qed.

(** One call: the quantity of the named dish is floored at zero. *)
Lemma quantity_handleUpdateOrder name delta m :
  wf m ->
  quantity name (handleUpdateOrder name delta m) = Z.max 0 (quantity name m + delta).
Proof.
  intros Hwf. rewrite handleUpdateOrder_eq by assumption.
  destruct (Z.leb_spec (quantity name m + delta) 0) as [Hle|Hgt].
  - unfold quantity at 1. rewrite get_delete_eq. simpl. lia.
  - unfold quantity at 1. rewrite get_set_eq. simpl.
    destruct (Z.eqb_spec (quantity name m + delta) 0); lia.
Qed.

(** One call: every other entry is as it was. *)
Lemma get_handleUpdateOrder_other name other delta m :
  wf m -> other <> name ->
  get other (handleUpdateOrder name delta m) = get other m.
Proof.
  intros Hwf Hne. rewrite handleUpdateOrder_eq by assumption.
  destruct (_ <=? 0).
  - apply get_delete_ne. congruence.
  - apply get_set_ne. congruence.
Qed.

(** Both variants of the updater compute the same ledger. *)
Lemma handleUpdateOrder_max_agrees name delta m :
  handleUpdateOrder_max name delta m = handleUpdateOrder name delta m.
Proof.
  unfold handleUpdateOrder_max, handleUpdateOrder.
  set (q := or_zero _ + delta).
  destruct (Z.leb_spec q 0) as [Hle|Hgt].
  - replace (Z.max 0 q) with 0 by lia. reflexivity.
  - replace (Z.max 0 q) with q by lia.
    destruct (Z.eqb_spec q 0); [lia | reflexivity].
Qed.

Create HintDb ledger.
#[local] Hint Resolve wf_set wf_delete positive_set positive_delete
  handleUpdateOrder_wf handleUpdateOrder_positive : ledger.

Lemma apply_calls_wf calls : forall m, wf m -> wf (apply_calls calls m).
Proof.
  induction calls as [|c calls IH]; simpl; intros m Hwf; auto with ledger.
Qed.

Lemma apply_calls_positive calls : forall m,
  wf m -> positive_entries m -> positive_entries (apply_calls calls m).
Proof.
  induction calls as [|c calls IH]; simpl; intros m Hwf Hpos; auto with ledger.
Qed.

(** A sequence of calls: the quantity of [id] follows the running total of
    its own deltas, floored at zero after each of them. *)
Lemma quantity_apply_calls id calls : forall m,
  wf m ->
  quantity id (apply_calls calls m) = clamped_sum (deltas_for id calls) (quantity id m).
Proof.
  induction calls as [|[k d] calls IH]; simpl; intros m Hwf; [reflexivity|].
  rewrite IH by now apply handleUpdateOrder_wf.
  unfold deltas_for. simpl.
  destruct (String.eqb_spec k id) as [->|Hne]; simpl.
  - now rewrite quantity_handleUpdateOrder.
  - f_equal. unfold quantity.
    now rewrite get_handleUpdateOrder_other by congruence.
Qed.

(** With positive entries only, a dish is absent exactly when its quantity
    reads zero. *)
Lemma absent_iff_zero k m :
  positive_entries m -> (get k m = None <-> quantity k m = 0).
Proof.
  intros Hpos. unfold quantity. destruct (get k m) as [q|] eqn:E; simpl.
  - apply get_some_in in E.
    unfold positive_entries in Hpos. rewrite Forall_forall in Hpos.
    specialize (Hpos _ E). simpl in Hpos.
    destruct (Z.eqb_spec q 0); split; intros; try discriminate; lia.
  - tauto.
Qed.

Lemma clamped_sum_nonneg ds : forall start, 0 <= start -> 0 <= clamped_sum ds start.
Proof.
  induction ds as [|d ds IH]; simpl; intros start Hs; [assumption|].
  apply IH. lia.
Qed.

Lemma clamped_sum_no_clamp ds : forall start,
  0 <= start -> prefixes_nonneg start ds ->
  clamped_sum ds start = start + sum_deltas ds.
Proof.
  induction ds as [|d ds IH]; simpl; intros start Hs Hp; [lia|].
  destruct Hp as [Hd Hp].
  replace (Z.max 0 (start + d)) with (start + d) by lia.
  rewrite IH by assumption. lia.
Qed.

Lemma quantity_nonneg k m : positive_entries m -> 0 <= quantity k m.
Proof.
  intros Hpos. unfold quantity. destruct (get k m) as [q|] eqn:E; simpl; [|lia].
  apply get_some_in in E.
  unfold positive_entries in Hpos. rewrite Forall_forall in Hpos.
  specialize (Hpos _ E). simpl in Hpos.
  destruct (q =? 0); lia.
Qed.

(** Under the calls the interface offers nothing is ever floored: the
    quantity of a dish is the plain sum of its deltas. *)
Lemma quantity_offered_calls id calls : forall m,
  wf m -> positive_entries m -> offered_calls calls m ->
  quantity id (apply_calls calls m) = quantity id m + sum_deltas (deltas_for id calls).
Proof.
  induction calls as [|[k d] calls IH]; simpl; intros m Hwf Hpos Hoff; [lia|].
  destruct Hoff as [Hd Hoff].
  rewrite IH by auto with ledger.
  unfold deltas_for. simpl.
  destruct (String.eqb_spec k id) as [->|Hne]; simpl.
  - rewrite quantity_handleUpdateOrder by assumption.
    pose proof (quantity_nonneg id m Hpos). lia.
  - unfold quantity at 1. rewrite get_handleUpdateOrder_other by congruence.
    reflexivity.
Qed.

(** From an empty ledger, under the calls the interface offers, the quantity
    of a dish is the sum of its deltas, which is never negative. *)
Corollary quantity_offered_calls_empty id calls :
  offered_calls calls empty ->
  quantity id (apply_calls calls empty) = Z.max 0 (sum_deltas (deltas_for id calls)).
Proof.
  intros Hoff.
  assert (Hwf : wf empty) by constructor.
  assert (Hpos : positive_entries empty) by constructor.
  pose proof (quantity_nonneg id _ (apply_calls_positive calls empty Hwf Hpos)) as Hn.
  rewrite quantity_offered_calls in * by assumption.
  change (quantity id empty) with 0 in *. lia.
Qed.

End LedgerFacts.

(** Claim C1, as amended. For every sequence of [adjust(id, delta)] calls on
    an initially empty ledger, the final quantity recorded for [id] is the
    running total of the deltas for [id], floored at zero after every call;
    [id] is absent from the ledger exactly when that quantity is zero; and
    the quantity equals [max(0, sum of the deltas)] whenever no prefix of the
    deltas for [id] sums to less than zero. *)
Theorem adjust_sequence_running_clamp (calls : list (string * Z)) (id : string) :
  quantity id (apply_calls calls JsMap.empty) = clamped_sum (deltas_for id calls) 0
  /\ (JsMap.get id (apply_calls calls JsMap.empty) = None
      <-> clamped_sum (deltas_for id calls) 0 = 0)
  /\ (prefixes_nonneg 0 (deltas_for id calls) ->
      quantity id (apply_calls calls JsMap.empty)
      = Z.max 0 (sum_deltas (deltas_for id calls))).
Proof.
  assert (Hwf : JsMap.wf JsMap.empty) by constructor.
  assert (Hpos : positive_entries JsMap.empty) by constructor.
  assert (Hq : quantity id (apply_calls calls JsMap.empty)
               = clamped_sum (deltas_for id calls) 0).
  { now rewrite quantity_apply_calls. }
  split; [exact Hq|]. split.
  - rewrite <- Hq. apply absent_iff_zero. now apply apply_calls_positive.
  - intros Hp. rewrite Hq.
    pose proof (clamped_sum_nonneg (deltas_for id calls) 0 (Z.le_refl 0)) as Hn.
    rewrite clamped_sum_no_clamp in * by (assumption || lia). lia.
Qed.

(** The theorem at three calls for one dish: two additions and a removal. *)
Lemma adjust_sequence_running_clamp_witness :
  prefixes_nonneg 0 (deltas_for "Ramen" [("Ramen", 1); ("Gyoza", 1); ("Ramen", 1); ("Ramen", -1)]%string)
  /\ quantity "Ramen"
       (apply_calls [("Ramen", 1); ("Gyoza", 1); ("Ramen", 1); ("Ramen", -1)]%string JsMap.empty)
     = Z.max 0 (sum_deltas (deltas_for "Ramen"
         [("Ramen", 1); ("Gyoza", 1); ("Ramen", 1); ("Ramen", -1)]%string)).
Proof.
  split.
  - simpl. lia.
  - apply (adjust_sequence_running_clamp
             [("Ramen", 1); ("Gyoza", 1); ("Ramen", 1); ("Ramen", -1)]%string "Ramen").
    simpl. lia.
Defined.

(** Claim C1 as stated fails: a removal on an absent dish is floored at zero,
    so after [adjust("Ramen", -1)] and [adjust("Ramen", 1)] the ledger holds
    one Ramen, while [max(0, -1 + 1)] is zero. *)
Lemma adjust_sequence_not_max_of_sum :
  quantity "Ramen" (apply_calls [("Ramen", -1); ("Ramen", 1)]%string JsMap.empty)
  <> Z.max 0 (sum_deltas (deltas_for "Ramen" [("Ramen", -1); ("Ramen", 1)]%string)).
Proof. vm_compute. discriminate. Qed.

(** ** The order summary: display list and totals *)

Section OrderSummaryFacts.

Variable menuItems : list MenuItem.

Lemma cartItems_app l1 l2 :
  cartItems (l1 ++ l2) menuItems = cartItems l1 menuItems ++ cartItems l2 menuItems.
Proof. unfold cartItems, JsMap.entries. now rewrite map_app, filter_app. Qed.

Lemma cartItems_cons e l :
  cartItems (e :: l) menuItems =
    match find_item (fst e) menuItems with
    | Some _ => cart_line menuItems e :: cartItems l menuItems
    | None => cartItems l menuItems
    end.
Proof.
  unfold cartItems, JsMap.entries. cbn [map filter].
  unfold resolved, cart_line at 1. cbn [item].
  now destruct (find_item (fst e) menuItems).
Qed.

(** Every line of the display list carries the dish its name resolves to. *)
Lemma cartItems_resolved order i :
  In i (cartItems order menuItems) ->
  exists it, item i = Some it /\ find_item (name i) menuItems = Some it.
Proof.
  unfold cartItems. rewrite filter_In, in_map_iff.
  intros [[e [<- _]] Hres]. simpl in *.
  unfold resolved in Hres. simpl in Hres.
  destruct (find_item (fst e) menuItems) as [it|]; [eauto | discriminate].
Qed.

Lemma totalItems_from l : forall acc,
  fold_left (fun a b => a + b) l acc = acc + fold_left (fun a b => a + b) l 0.
Proof.
  induction l as [|x l IH]; simpl; intros acc; [lia|].
  rewrite IH. rewrite (IH x). lia.
Qed.

Lemma totalItems_app l1 l2 : totalItems (l1 ++ l2) = totalItems l1 + totalItems l2.
Proof.
  unfold totalItems, JsMap.values. rewrite map_app, fold_left_app.
  now rewrite totalItems_from.
Qed.

Lemma price_value_empty : price_value "" = 0%Q.
Proof. reflexivity. Qed.

(** One step of the reducer adds the value of the line. *)
Lemma add_line_value sum e it :
  find_item (fst e) menuItems = Some it ->
  (add_line sum (cart_line menuItems e) == sum + line_value menuItems e)%Q.
Proof.
  intros Hfind. unfold add_line, line_value, cart_line. simpl. rewrite Hfind.
  destruct (price it) as [[|c p]|]; simpl.
  - rewrite price_value_empty. ring.
  - reflexivity.
  - ring.
Qed.

Lemma fold_add_line l : forall sum,
  (fold_left add_line (cartItems l menuItems) sum
   == sum + fold_right (fun e acc => line_value menuItems e + acc) 0 l)%Q.
Proof.
  induction l as [|e l IH]; intros sum.
  - simpl. ring.
  - rewrite cartItems_cons. simpl fold_right.
    destruct (find_item (fst e) menuItems) as [it|] eqn:Hfind.
    + simpl fold_left. rewrite IH. rewrite (add_line_value sum e it Hfind). ring.
    + rewrite IH. unfold line_value at 2. rewrite Hfind. ring.
Qed.

(** The footer total of the longer App.tsx is the total of the summary. *)
Lemma App_totalPrice_agrees order : App_totalPrice order menuItems = cartTotal order menuItems.
Proof.
  unfold App_totalPrice, cartTotal, JsMap.entries.
  generalize 0%Q as sum.
  induction order as [|e l IH]; intros sum; [reflexivity|].
  rewrite cartItems_cons. simpl fold_left at 1.
  destruct (find_item (fst e) menuItems) as [it|] eqn:Hfind.
  - simpl fold_left at 2. rewrite IH. f_equal.
    unfold add_line, cart_line. simpl. now rewrite Hfind.
  - apply IH.
Qed.

End OrderSummaryFacts.

(** Claim C3. An entry of the ledger whose identity resolves to no dish of
    the menu is not in the display list and adds nothing to the total price,
    while its quantity is counted in the number of items: the display list
    and the total are those of the ledger without the entry, and the item
    count is the count without the entry plus its quantity. *)
Theorem orphan_entry_views
  (menuItems : list MenuItem) (before after : list (string * Z)) (id : string) (q : Z) :
  find_item id menuItems = None ->
  (forall i, In i (cartItems (before ++ (id, q) :: after) menuItems) -> name i <> id)
  /\ cartItems (before ++ (id, q) :: after) menuItems = cartItems (before ++ after) menuItems
  /\ cartTotal (before ++ (id, q) :: after) menuItems = cartTotal (before ++ after) menuItems
  /\ totalItems (before ++ (id, q) :: after) = totalItems (before ++ after) + q.
Proof.
  intros Horphan.
  assert (Hsame : cartItems (before ++ (id, q) :: after) menuItems
                  = cartItems (before ++ after) menuItems).
  { rewrite !cartItems_app, cartItems_cons. simpl. now rewrite Horphan. }
  split; [|split; [exact Hsame|split]].
  - intros i Hin Hname. apply cartItems_resolved in Hin.
    destruct Hin as [it [_ Hfind]]. congruence.
  - unfold cartTotal. now rewrite Hsame.
  - rewrite !totalItems_app.
    change ((id, q) :: after) with ([(id, q)] ++ after).
    rewrite totalItems_app. unfold totalItems at 2. simpl. lia.
Qed.

(** ** Price strings *)

Section PriceFacts.

Local Open Scope string_scope.

Lemma append_nil_r (s : string) : s ++ "" = s.
Proof. induction s as [|c s IH]; simpl; congruence. Qed.

Lemma append_assoc (a b c : string) : (a ++ b) ++ c = a ++ (b ++ c).
Proof. induction a as [|x a IH]; simpl; congruence. Qed.

Lemma is_dot_eq c : is_dot c = true -> c = "."%char.
Proof. unfold is_dot. apply Ascii.eqb_eq. Qed.

Lemma digits_split s : s = digits_prefix s ++ drop_digits s.
Proof.
  induction s as [|c s IH]; simpl; [reflexivity|].
  destruct (is_digit c); simpl; congruence.
Qed.

Lemma digits_prefix_all s : all_digits (digits_prefix s).
Proof.
  unfold all_digits. induction s as [|c s IH]; simpl; [constructor|].
  destruct (is_digit c) eqn:E; simpl; [now constructor | constructor].
Qed.

Lemma drop_digits_stop s : ~ begins_with is_digit (drop_digits s).
Proof.
  induction s as [|c s IH]; simpl; [tauto|].
  destruct (is_digit c) eqn:E; [assumption|].
  simpl. congruence.
Qed.

Lemma digits_prefix_empty s : digits_prefix s = "" <-> ~ begins_with is_digit s.
Proof.
  destruct s as [|c s]; simpl; [tauto|].
  destruct (is_digit c); split; intros; try discriminate; try tauto; congruence.
Qed.

Lemma digits_prefix_app ip r :
  all_digits ip -> ~ begins_with is_digit r -> digits_prefix (ip ++ r) = ip.
Proof.
  unfold all_digits. intros Hip Hr.
  induction ip as [|c ip IH]; simpl in *.
  - now apply digits_prefix_empty.
  - inversion Hip as [|? ? Hc Hrest]; subst. rewrite Hc. now rewrite IH.
Qed.

Lemma drop_digits_app ip r :
  all_digits ip -> ~ begins_with is_digit r -> drop_digits (ip ++ r) = r.
Proof.
  unfold all_digits. intros Hip Hr.
  induction ip as [|c ip IH]; simpl in *.
  - destruct r as [|c r]; simpl in *; [reflexivity|].
    destruct (is_digit c); [tauto | reflexivity].
  - inversion Hip as [|? ? Hc Hrest]; subst. rewrite Hc. now apply IH.
Qed.

Lemma digits_prefix_id fp : all_digits fp -> digits_prefix fp = fp.
Proof.
  intros H. rewrite <- (append_nil_r fp) at 1.
  apply digits_prefix_app; simpl; tauto.
Qed.

(** A match at the first position is a run that cannot be extended. *)
Lemma match_here_some s m :
  match_here s = Some m ->
  exists ip pt fp post,
    m = run_text ip pt fp /\ s = m ++ post
    /\ ip <> "" /\ all_digits ip /\ all_digits fp
    /\ ~ begins_with is_digit post
    /\ (pt = false -> fp = "" /\ ~ begins_with is_dot post).
Proof.
  unfold match_here. intros H.
  pose proof (digits_split s) as Hs.
  pose proof (digits_prefix_all s) as Hip.
  pose proof (drop_digits_stop s) as Hstop.
  destruct (digits_prefix s) as [|d ip] eqn:Ep; [discriminate|].
  destruct (drop_digits s) as [|c rest] eqn:Ed.
  - injection H as <-. rewrite append_nil_r in Hs.
    exists (String d ip), false, "", "". unfold run_text.
    rewrite !append_nil_r.
    split; [reflexivity|]. split; [exact Hs|]. split; [discriminate|].
    split; [exact Hip|]. split; [constructor|]. split; [exact Hstop|].
    intros _. split; [reflexivity | exact Hstop].
  - destruct (is_dot c) eqn:Edot.
    + injection H as <-. apply is_dot_eq in Edot. subst c.
      exists (String d ip), true, (digits_prefix rest), (drop_digits rest).
      unfold run_text.
      split; [reflexivity|]. split.
      { rewrite Hs at 1. simpl. rewrite append_assoc. simpl.
        now rewrite <- digits_split. }
      split; [discriminate|]. split; [exact Hip|].
      split; [apply digits_prefix_all|]. split; [apply drop_digits_stop|].
      discriminate.
    + injection H as <-.
      exists (String d ip), false, "", (String c rest). unfold run_text.
      rewrite append_nil_r.
      split; [reflexivity|]. split; [exact Hs|]. split; [discriminate|].
      split; [exact Hip|]. split; [constructor|]. split; [exact Hstop|].
      intros _. split; [reflexivity|]. simpl. congruence.
Qed.

Lemma match_here_none s : match_here s = None -> ~ begins_with is_digit s.
Proof.
  unfold match_here. intros H. apply digits_prefix_empty.
  destruct (digits_prefix s); [reflexivity|].
  destruct (drop_digits s) as [|c rest]; [discriminate|].
  destruct (is_dot c); discriminate.
Qed.

(** The leftmost match is the first numeric run. *)
Lemma regex_match_some s : forall m,
  regex_match s = Some m ->
  exists ip pt fp, m = run_text ip pt fp /\ first_numeric_run s ip pt fp.
Proof.
  induction s as [|c s IH]; intros m H.
  - discriminate.
  - simpl in H. destruct (match_here (String c s)) as [m'|] eqn:Eh.
    + injection H as <-.
      destruct (match_here_some _ _ Eh) as (ip & pt & fp & post & -> & Hs & Hrest).
      exists ip, pt, fp. split; [reflexivity|].
      exists "", post. simpl. split; [exact Hs|].
      split; [constructor | exact Hrest].
    + apply match_here_none in Eh. simpl in Eh.
      destruct (IH m H) as (ip & pt & fp & -> & pre & post & Hs & Hpre & Hrest).
      exists ip, pt, fp. split; [reflexivity|].
      exists (String c pre), post. simpl. split; [now rewrite Hs|].
      split; [|exact Hrest].
      constructor; [|exact Hpre].
      destruct (is_digit c); [tauto | reflexivity].
Qed.

(** There is no match exactly when the string has no digit. *)
Lemma regex_match_none s : regex_match s = None <-> no_digit s.
Proof.
  unfold no_digit. induction s as [|c s IH].
  - simpl. split; [constructor | reflexivity].
  - cbn [regex_match]. destruct (match_here (String c s)) as [m|] eqn:Eh.
    + split; [discriminate|]. intros Hnd. exfalso.
      simpl in Hnd. inversion Hnd as [|? ? Hc _]; subst.
      unfold match_here in Eh. simpl in Eh. rewrite Hc in Eh. discriminate.
    + apply match_here_none in Eh. simpl in Eh. rewrite IH. simpl. split.
      * intros Hs. constructor; [|exact Hs].
        destruct (is_digit c); [tauto | reflexivity].
      * intros Hnd. now inversion Hnd.
Qed.

(** [parseFloat] reads a run as the decimal number it writes. *)
Lemma parseFloat_run ip pt fp :
  all_digits ip -> all_digits fp -> (pt = false -> fp = "") ->
  (parseFloat (run_text ip pt fp) == decimal_value ip fp)%Q.
Proof.
  intros Hip Hfp Hpt. unfold parseFloat, run_text, decimal_value.
  assert (Hstop : ~ begins_with is_digit (if pt then String "."%char fp else "")).
  { destruct pt; simpl; [discriminate | tauto]. }
  rewrite digits_prefix_app, drop_digits_app by assumption.
  apply Qplus_comp; [reflexivity|].
  assert (Hpow : forall n : nat, (0 < 10 ^ Z.of_nat n)%Z).
  { intros n. apply Z.pow_pos_nonneg; lia. }
  destruct pt.
  - change (is_dot ".") with true. cbv iota.
    rewrite digits_prefix_id by assumption.
    rewrite Qmake_Qdiv, Z2Pos.id by apply Hpow. reflexivity.
  - rewrite (Hpt eq_refl). reflexivity.
Qed.

End PriceFacts.

(** ** The code against decimal notation *)

Section DecimalFacts.

Local Open Scope string_scope.

Lemma is_numeral_digit c : is_numeral c = is_digit c.
Proof. destruct c as [[] [] [] [] [] [] [] []]; reflexivity. Qed.

Lemma numeral_value_digit c : is_digit c = true -> numeral_value c = digit_value c.
Proof.
  destruct c as [[] [] [] [] [] [] [] []]; vm_compute; intros H;
    try reflexivity; discriminate H.
Qed.

Lemma numerals_only_digits s : numerals_only s <-> all_digits s.
Proof.
  unfold numerals_only, all_digits. rewrite !Forall_forall.
  split; intros H c Hc; specialize (H c Hc);
    [now rewrite <- is_numeral_digit | now rewrite is_numeral_digit].
Qed.

Lemma numeral_free_no_digit s : numeral_free s <-> no_digit s.
Proof.
  unfold numeral_free, no_digit. rewrite !Forall_forall.
  split; intros H c Hc; specialize (H c Hc);
    [now rewrite <- is_numeral_digit | now rewrite is_numeral_digit].
Qed.

Lemma starts_with_numeral_digit s : starts_with_numeral s <-> begins_with is_digit s.
Proof. destruct s as [|c s]; simpl; [tauto|]. now rewrite is_numeral_digit. Qed.

Lemma starts_with_point_dot s : starts_with_point s <-> begins_with is_dot s.
Proof.
  destruct s as [|c s]; simpl; [tauto|]. unfold is_dot.
  symmetry. apply Ascii.eqb_eq.
Qed.

Lemma numeric_run_iff s ip pt fp : numeric_run s ip pt fp <-> first_numeric_run s ip pt fp.
Proof.
  unfold numeric_run, first_numeric_run.
  split; intros (pre & post & Hs & Hpre & Hne & Hip & Hfp & Hpost & Hpt);
    exists pre, post; (split; [exact Hs|]).
  - rewrite <- numeral_free_no_digit, <- !numerals_only_digits,
      <- starts_with_numeral_digit, <- starts_with_point_dot. tauto.
  - rewrite numeral_free_no_digit, !numerals_only_digits,
      starts_with_numeral_digit, starts_with_point_dot. tauto.
Qed.

(** Reading digits from the left is reading them by place value. *)
Lemma digits_value_shift l : forall acc,
  fold_left (fun acc c => 10 * acc + digit_value c) l acc
  = (acc * 10 ^ Z.of_nat (List.length l)
     + fold_left (fun acc c => 10 * acc + digit_value c) l 0)%Z.
Proof.
  induction l as [|c l IH]; intros acc.
  - cbn [fold_left List.length]. change (10 ^ Z.of_nat 0)%Z with 1%Z. lia.
  - cbn [fold_left List.length]. rewrite IH, (IH (10 * 0 + digit_value c)%Z).
    rewrite Nat2Z.inj_succ, Z.pow_succ_r by lia. ring.
Qed.

Lemma length_list_ascii s : List.length (list_ascii_of_string s) = String.length s.
Proof. induction s as [|c s IH]; simpl; congruence. Qed.

Lemma number_of_digits_value s : all_digits s -> number_of s = digits_value s.
Proof.
  unfold all_digits, digits_value. induction s as [|c s IH]; intros Hs; [reflexivity|].
  cbn [list_ascii_of_string] in Hs. inversion Hs as [|? ? Hc Hrest]; subst.
  cbn [number_of list_ascii_of_string fold_left].
  rewrite digits_value_shift, length_list_ascii, IH, numeral_value_digit by assumption.
  ring.
Qed.

Lemma run_number_decimal ip fp :
  all_digits ip -> all_digits fp -> run_number ip fp = decimal_value ip fp.
Proof.
  intros Hip Hfp. unfold run_number, decimal_value.
  now rewrite !number_of_digits_value.
Qed.

(** A run that cannot be extended is what the pattern matches at its
    start. *)
Lemma match_here_run ip pt fp post :
  ip <> "" -> all_digits ip -> all_digits fp ->
  ~ begins_with is_digit post ->
  (pt = false -> fp = "" /\ ~ begins_with is_dot post) ->
  match_here (run_text ip pt fp ++ post) = Some (run_text ip pt fp).
Proof.
  intros Hne Hip Hfp Hpost Hpt. unfold match_here, run_text.
  rewrite append_assoc.
  assert (Hstop : ~ begins_with is_digit ((if pt then String "."%char fp else "") ++ post)).
  { destruct pt; simpl; [discriminate | exact Hpost]. }
  rewrite digits_prefix_app, drop_digits_app by assumption.
  destruct ip as [|d ip]; [congruence|].
  destruct pt.
  - simpl. now rewrite digits_prefix_app.
  - destruct (Hpt eq_refl) as [-> Hdot]. simpl. rewrite append_nil_r.
    destruct post as [|c post]; [reflexivity|].
    simpl in Hdot. destruct (is_dot c); [congruence | reflexivity].
Qed.

Lemma regex_match_here s m : match_here s = Some m -> regex_match s = Some m.
Proof. destruct s as [|c s]; simpl; intros H; [discriminate | now rewrite H]. Qed.

(** The first numeric run of a string is what the pattern matches in it. *)
Lemma regex_match_run s ip pt fp :
  first_numeric_run s ip pt fp -> regex_match s = Some (run_text ip pt fp).
Proof.
  intros (pre & post & -> & Hpre & Hne & Hip & Hfp & Hpost & Hpt).
  unfold no_digit in Hpre. induction pre as [|c pre IH].
  - simpl. apply regex_match_here. now apply match_here_run.
  - cbn [list_ascii_of_string] in Hpre. inversion Hpre as [|? ? Hc Hrest]; subst.
    cbn [append regex_match].
    assert (Hnone : match_here (String c (pre ++ run_text ip pt fp ++ post)) = None).
    { unfold match_here. simpl. now rewrite Hc. }
    rewrite Hnone. now apply IH.
Qed.

(** The code's price is the extracted value, and every price string has
    one. *)
Lemma extracted_price_value p x : extracted p x -> (price_value p == x)%Q.
Proof.
  unfold price_value. intros [[Hfree Hx] | (ip & pt & fp & Hrun & Hx)].
  - apply numeral_free_no_digit, regex_match_none in Hfree.
    rewrite Hfree. now symmetry.
  - apply numeric_run_iff in Hrun.
    rewrite (regex_match_run _ _ _ _ Hrun).
    destruct Hrun as (pre & post & _ & _ & _ & Hip & Hfp & _ & Hpt).
    rewrite Hx, run_number_decimal by assumption.
    apply parseFloat_run; try assumption.
    intros E. now destruct (Hpt E).
Qed.

Lemma price_value_extracted p : extracted p (price_value p).
Proof.
  unfold price_value. destruct (regex_match p) as [m|] eqn:Em.
  - right. destruct (regex_match_some p m Em) as (ip & pt & fp & -> & Hrun).
    exists ip, pt, fp. split; [now apply numeric_run_iff|].
    destruct Hrun as (pre & post & _ & _ & _ & Hip & Hfp & _ & Hpt).
    rewrite run_number_decimal by assumption.
    apply parseFloat_run; try assumption.
    intros E. now destruct (Hpt E).
  - left. split; [|reflexivity]. now apply numeral_free_no_digit, regex_match_none.
Qed.

End DecimalFacts.

Section LookupFacts.

Variable menuItems : list MenuItem.

Lemma find_item_resolves name it :
  find_item name menuItems = Some it <-> resolves menuItems name it.
Proof.
  unfold find_item, resolves. induction menuItems as [|d l IH]; simpl.
  - split; [discriminate|]. intros (pre & post & H & _). now destruct pre.
  - destruct (String.eqb_spec (originalName d) name) as [Heq|Hne].
    + split.
      * intros [= <-]. exists [], l. repeat split; [assumption | intros x []].
      * intros (pre & post & H & Hname & Hpre). destruct pre as [|x pre].
        -- simpl in H. now injection H as -> _.
        -- simpl in H. injection H as <- _. exfalso.
           apply (Hpre d); [now left | assumption].
    + rewrite IH. split.
      * intros (pre & post & -> & Hname & Hpre). exists (d :: pre), post.
        repeat split; [assumption|]. intros x [<-|Hx]; [assumption | now apply Hpre].
      * intros (pre & post & H & Hname & Hpre). destruct pre as [|x pre].
        -- simpl in H. injection H as -> _. congruence.
        -- simpl in H. injection H as <- ->. exists pre, post.
           repeat split; [assumption|]. intros y Hy. apply Hpre. now right.
Qed.

Lemma find_item_unresolved name :
  find_item name menuItems = None <-> unresolved menuItems name.
Proof.
  unfold find_item, unresolved. induction menuItems as [|d l IH]; simpl.
  - split; [intros _ x [] | reflexivity].
  - destruct (String.eqb_spec (originalName d) name) as [Heq|Hne].
    + split; [discriminate|]. intros H. exfalso. apply (H d); [now left | assumption].
    + rewrite IH. split.
      * intros H x [<-|Hx]; [assumption | now apply H].
      * intros H x Hx. apply H. now right.
Qed.

(** What an entry contributes is the value of its line. *)
Lemma contributes_line_value e v :
  contributes menuItems e v -> (v == line_value menuItems e)%Q.
Proof.
  unfold line_value.
  intros [(it & p & x & Hres & Hp & Hx & Hv) | [[Hun | (it & Hres & Hp)] Hv]].
  - apply find_item_resolves in Hres. rewrite Hres, Hp, Hv.
    now rewrite (extracted_price_value p x Hx).
  - apply find_item_unresolved in Hun. now rewrite Hun.
  - apply find_item_resolves in Hres. now rewrite Hres, Hp.
Qed.

Lemma line_value_contributes e : contributes menuItems e (line_value menuItems e).
Proof.
  unfold line_value, contributes.
  destruct (find_item (fst e) menuItems) as [it|] eqn:Hfind.
  - apply find_item_resolves in Hfind. destruct (price it) as [p|] eqn:Hp.
    + left. exists it, p, (price_value p).
      split; [assumption|]. split; [assumption|].
      split; [apply price_value_extracted | reflexivity].
    + right. split; [|reflexivity]. right. now exists it.
  - right. split; [|reflexivity]. left. now apply find_item_unresolved.
Qed.

Lemma contributions_sum entries amounts :
  Forall2 (contributes menuItems) entries amounts ->
  (Qsum amounts
   == fold_right (fun e acc => line_value menuItems e + acc) 0 entries)%Q.
Proof.
  induction 1 as [|e v entries amounts He _ IH]; simpl; [reflexivity|].
  now rewrite IH, (contributes_line_value e v He).
Qed.

End LookupFacts.

(** Claim C4. The total price is the sum of what the entries of the ledger
    contribute, where an entry whose dish resolves in the catalog and has a
    price contributes the extracted numeric value of the price string times
    its quantity, and an entry whose dish is missing or has no price
    contributes nothing; every ledger has such contributions. The extracted
    value is what the code reads from a price string: the number written by
    the first contiguous run of digits with at most one decimal point, and 0
    when the string holds no digit; every price string has one. Digits,
    place value and catalog lookup are stated independently of the code. *)
Theorem cartTotal_sum_of_priced_lines :
  (forall (order : JsMap.t) (menuItems : list MenuItem) (amounts : list Q),
      Forall2 (contributes menuItems) (JsMap.entries order) amounts ->
      (cartTotal order menuItems == Qsum amounts)%Q)
  /\ (forall (order : JsMap.t) (menuItems : list MenuItem),
        exists amounts : list Q,
          Forall2 (contributes menuItems) (JsMap.entries order) amounts)
  /\ (forall (p : string) (x : Q), extracted p x -> (price_value p == x)%Q)
  /\ (forall p : string, exists x : Q, extracted p x).
Proof.
  split; [|split; [|split]].
  - intros order menuItems amounts Hc.
    rewrite (contributions_sum menuItems _ _ Hc).
    unfold cartTotal. rewrite fold_add_line. unfold JsMap.entries. ring.
  - intros order menuItems. unfold JsMap.entries.
    induction order as [|e l [amounts IH]].
    + exists []. constructor.
    + exists (line_value menuItems e :: amounts).
      constructor; [apply line_value_contributes | exact IH].
  - apply extracted_price_value.
  - intros p. exists (price_value p). apply price_value_extracted.
Qed.

(** Two pho at 12.50, a tea without price and three of a dish that is not on
    the menu come to 25; "$12.50" is read as 12.5. *)
Lemma cartTotal_sum_of_priced_lines_witness :
  (cartTotal [("Pho", 2%Z); ("Tea", 1%Z); ("Bun Cha", 3%Z)]%string [pho; tea] == 25)%Q
  /\ (price_value "$12.50" == 25 # 2)%Q.
Proof.
  destruct cartTotal_sum_of_priced_lines as (Htotal & _ & Hprice & _).
  split.
  - apply (Htotal [("Pho", 2%Z); ("Tea", 1%Z); ("Bun Cha", 3%Z)]%string [pho; tea]
             [25; 0; 0]%Q).
    constructor; [|constructor; [|constructor; [|constructor]]].
    + left. exists pho, "12.50"%string, (25 # 2)%Q.
      split; [exists [], [tea]; repeat split; intros d []|].
      split; [reflexivity|]. split; [|reflexivity].
      right. exists "12"%string, true, "50"%string. split; [|reflexivity].
      exists ""%string, ""%string.
      repeat split; try (repeat constructor); try discriminate; simpl; tauto.
    + right. split; [|reflexivity]. right. exists tea.
      split; [|reflexivity].
      exists [pho], []. repeat split. intros d [<-|[]]. discriminate.
    + right. split; [|reflexivity]. left.
      intros d [<-|[<-|[]]]; discriminate.
  - apply Hprice. right. exists "12"%string, true, "50"%string. split; [|reflexivity].
    exists "$"%string, ""%string.
    repeat split; try (repeat constructor); try discriminate; simpl; tauto.
Defined.

(** The price parser on a few price strings. *)
Example price_value_examples :
  (price_value "$12.50" == 25 # 2)%Q
  /\ (price_value "1,200 yen" == 1)%Q
  /\ (price_value "12.50.3" == 25 # 2)%Q
  /\ (price_value "market price" == 0)%Q
  /\ (price_value "$.50" == 50)%Q
  /\ (price_value "8." == 8)%Q.
Proof. repeat split. Qed.

(** ** The currency symbol of the order summary *)

Section CurrencyFacts.

Lemma or_dollar_unpriced (p : option string) :
  truthy p = false -> or_dollar (option_map strip_price p) = "$"%string.
Proof. destruct p as [[|c p]|]; simpl; intros H; [reflexivity | discriminate | reflexivity]. Qed.

Lemma displayed_cons order menuItems i rest :
  cartItems order menuItems = i :: rest ->
  exists it, item i = Some it
             /\ displayed order menuItems
                = it :: flat_map (fun i => match item i with Some it => [it] | None => [] end) rest.
Proof.
  intros Hc. unfold displayed. rewrite Hc. simpl.
  destruct (cartItems_resolved menuItems order i) as [it [Hit _]].
  { rewrite Hc. now left. }
  exists it. now rewrite Hit.
Qed.

End CurrencyFacts.

(** Claim C7, as amended. The currency symbol shown with the totals of the
    order summary comes from the first dish of the display list: whenever
    that dish is the first displayed dish that has a price, the symbol is its
    price string with digits, dots and spaces stripped, and ["$"] when
    nothing remains; the symbol is ["$"] when no displayed dish has a
    price. *)
Theorem currencySymbol_first_displayed (order : JsMap.t) (menuItems : list MenuItem) :
  first_priced (displayed order menuItems) = None
  \/ first_priced (displayed order menuItems) = hd_error (displayed order menuItems) ->
  currencySymbol order menuItems
  = or_dollar (option_map strip_price (price_of (first_priced (displayed order menuItems)))).
Proof.
  intros Hfirst. unfold currencySymbol.
  destruct (cartItems order menuItems) as [|i rest] eqn:Hc.
  - unfold displayed. rewrite Hc. reflexivity.
  - destruct (displayed_cons _ _ _ _ Hc) as [it [Hit Hd]].
    rewrite Hit. rewrite Hd in *. unfold first_priced in *. simpl in *.
    destruct (truthy (price it)) eqn:Ht.
    + reflexivity.
    + rewrite or_dollar_unpriced by assumption.
      destruct Hfirst as [Hnone|Hhead].
      * now rewrite Hnone.
      * apply find_some in Hhead. destruct Hhead as [_ Hhead]. congruence.
Qed.

Lemma currencySymbol_first_displayed_witness :
  currencySymbol [("Smorrebrod", 2); ("Tea", 1)]%string [tea; smorrebrod] = "kr"%string.
Proof.
  apply (currencySymbol_first_displayed [("Smorrebrod", 2); ("Tea", 1)]%string [tea; smorrebrod]).
  right. reflexivity.
Defined.

(** Claim C7 as stated fails: Pho is the first dish that has a price, and its
    price string ["12.50"] stripped of digits, dots and spaces is empty, but
    the symbol shown is ["$"]. *)
Lemma currencySymbol_not_stripped_price :
  first_priced [pho] = Some pho
  /\ first_priced (displayed [("Pho", 1)]%string [pho]) = Some pho
  /\ price pho = Some "12.50"%string
  /\ currencySymbol [("Pho", 1)]%string [pho] <> strip_price "12.50".
Proof. repeat split. vm_compute. discriminate. Qed.

(** The summary looks at the first displayed dish only, where the footer of
    the longer App.tsx searches the menu: with Tea (no price) ordered before
    Smorrebrod, the summary shows ["$"] and the footer ["kr"]. *)
Example currencySymbol_first_line_only :
  currencySymbol [("Tea", 1); ("Smorrebrod", 2)]%string [tea; smorrebrod] = "$"%string
  /\ App_currencySymbol [tea; smorrebrod] = "kr"%string.
Proof. split; reflexivity. Qed.

(** ** Filters *)

Lemma hasTag_iff (d : MenuItem) (tag : string) : hasTag d tag = true <-> has_tag d tag.
Proof.
  unfold hasTag, has_tag. destruct (tags d) as [ts|]; [|split; [discriminate | tauto]].
  rewrite existsb_exists. split.
  - intros [x [Hin Heq]]. apply String.eqb_eq in Heq. now subst.
  - intros Hin. exists tag. split; [assumption | apply String.eqb_refl].
Qed.

(** Claim C6. For every dish and every state of the four filters: the card
    is dimmed exactly when "vegetarian only" is on and the tags hold neither
    Vegetarian nor Vegan; it is unsafe exactly when the nut filter is on and
    the tags hold Contains Nuts, or the pork filter is on and the tags hold
    Contains Pork; it is highlighted as spicy exactly when that filter is on
    and the tags hold Spicy. An unsafe card shows one warning: the nut
    warning whenever it applies, the pork warning only when the nut warning
    does not apply; a safe card shows none. *)
Theorem card_verdict (f : ActiveFilters) (d : MenuItem) :
  (isDimmed (card f d) = true
   <-> vegetarian f = true /\ ~ (has_tag d "Vegetarian" \/ has_tag d "Vegan"))
  /\ (isUnsafe (card f d) = true
      <-> (nutAllergy f = true /\ has_tag d "Contains Nuts")
          \/ (noPork f = true /\ has_tag d "Contains Pork"))
  /\ (highlightSpicy (card f d) = true
      <-> spicy f = true /\ has_tag d "Spicy")
  /\ (warningOverlay (card f d) = Some "CONTAINS NUTS"%string
      <-> nutAllergy f = true /\ has_tag d "Contains Nuts")
  /\ (warningOverlay (card f d) = Some "CONTAINS PORK"%string
      <-> (noPork f = true /\ has_tag d "Contains Pork")
          /\ ~ (nutAllergy f = true /\ has_tag d "Contains Nuts"))
  /\ (warningOverlay (card f d) = None <-> isUnsafe (card f d) = false).
Proof.
  rewrite <- !hasTag_iff. unfold card. simpl.
  destruct f as [fv fn fp fs]. simpl.
  destruct fv, fn, fp, fs;
    destruct (hasTag d "Vegetarian"), (hasTag d "Vegan"), (hasTag d "Contains Nuts"),
      (hasTag d "Contains Pork"), (hasTag d "Spicy");
    simpl; intuition discriminate.
Qed.

(** The two cards of the design document. *)
Example card_examples :
  card {| vegetarian := true; nutAllergy := false; noPork := false; spicy := true |} curry
  = {| isDimmed := false; showNutWarning := false; showPorkWarning := false;
       isUnsafe := false; highlightSpicy := true; warningOverlay := None |}
  /\ card {| vegetarian := false; nutAllergy := true; noPork := true; spicy := false |} pad_thai
     = {| isDimmed := false; showNutWarning := true; showPorkWarning := true;
          isUnsafe := true; highlightSpicy := false;
          warningOverlay := Some "CONTAINS NUTS"%string |}.
Proof. split; reflexivity. Qed.

(** ** The bill splitter *)

Section BillFacts.

Local Open Scope Q_scope.

(** [Math.max(1, splitCount)] on a whole number of people. *)
Lemma Math_max_party (requested : Z) :
  Math_max (lit 1) (inject_Z requested) == inject_Z (Z.max 1 requested).
Proof.
  simpl. destruct (Qle_bool (inject_Z 1) (inject_Z requested)) eqn:E.
  - apply Qle_bool_iff in E. rewrite <- Zle_Qle in E.
    assert (Hr : Z.max 1 requested = requested) by lia.
    rewrite Hr. reflexivity.
  - assert (H : ~ (1 <= requested)%Z).
    { intros H. rewrite Zle_Qle in H. apply Qle_bool_iff in H. congruence. }
    assert (Hr : Z.max 1 requested = 1%Z) by lia.
    rewrite Hr. reflexivity.
Qed.

End BillFacts.

(** Claim C5. For every bill base, every tip percentage and every requested
    party count, with the party count raised to 1 when it is below 1, the
    splitter computes (in exact arithmetic)
    tipAmount = billBase * tipPercent / 100,
    grandTotal = billBase + tipAmount,
    perPersonTotal = grandTotal / partyCount,
    perPersonBillShare = billBase / partyCount and
    perPersonTipShare = tipAmount / partyCount;
    for a party of one, perPersonTotal = billBase * (1 + tipPercent / 100);
    and for billBase = 100, tipPercent = 18 and a party of four the results
    are 18, 118 and 29.5, in exact arithmetic and on binary64 floats alike.
    The bill base need not be non-negative for any of this. *)
Theorem bill_split (billBase tipPercent : Q) (requested : Z) :
  (splitBy (bill billBase tipPercent (inject_Z requested))
   == inject_Z (Z.max 1 requested)
   /\ tipAmount (bill billBase tipPercent (inject_Z requested))
      == billBase * tipPercent / 100
   /\ finalTotal (bill billBase tipPercent (inject_Z requested))
      == billBase + billBase * tipPercent / 100
   /\ perPersonTotal (bill billBase tipPercent (inject_Z requested))
      == (billBase + billBase * tipPercent / 100) / inject_Z (Z.max 1 requested)
   /\ perPersonBill (bill billBase tipPercent (inject_Z requested))
      == billBase / inject_Z (Z.max 1 requested)
   /\ perPersonTip (bill billBase tipPercent (inject_Z requested))
      == (billBase * tipPercent / 100) / inject_Z (Z.max 1 requested)
   /\ perPersonTotal (bill billBase tipPercent 1)
      == billBase * (1 + tipPercent / 100)
   /\ tipAmount (bill 100 18 4) == 18
   /\ finalTotal (bill 100 18 4) == 118
   /\ perPersonTotal (bill 100 18 4) == 59 # 2)%Q
  /\ (tipAmount (bill 100 18 4) = 18
      /\ finalTotal (bill 100 18 4) = 118
      /\ perPersonTotal (bill 100 18 4) = 29.5)%float.
Proof.
  split; [|repeat split].
  assert (Htip : (billBase * (tipPercent / inject_Z 100) == billBase * tipPercent / 100)%Q).
  { change (inject_Z 100) with 100%Q. field. }
  pose proof (Math_max_party requested) as Hmax.
  unfold bill. cbn [splitBy tipAmount finalTotal perPersonTotal perPersonBill perPersonTip].
  cbn [num_add num_mul num_div Number_Q].
  repeat split.
  - exact Hmax.
  - exact Htip.
  - now rewrite Htip.
  - now rewrite Htip, Hmax.
  - now rewrite Hmax.
  - now rewrite Htip, Hmax.
  - simpl. field.
Qed.

(** ** Persistence *)

Section PersistenceFacts.

Import App.

(** Run an effect symbolically: expose the state it returns. *)
Ltac run_effect :=
  unfold exec, load, load_effect, save_effect, try_catch, bind, get_state,
    localStorage_getItem;
  simpl.

Lemma has_dishes_snapshot st :
  length_positive (menuItems_state st) = true -> has_dishes (snapshot st).
Proof.
  intros E. exists (menuItems_state st). split; [reflexivity | exact E].
Qed.

(** A state with dishes holds an array with a positive length. *)
Lemma menuItems_length_positive st :
  menuItems st <> [] -> length_positive (menuItems_state st) = true.
Proof.
  unfold menuItems. destruct (menuItems_state st) as [[|d ds]|text b]; simpl;
    intros H; try reflexivity; now contradiction H.
Qed.

Lemma menuItems_dishes st :
  menuItems st <> [] -> menuItems_state st = Dishes (menuItems st).
Proof.
  unfold menuItems. destruct (menuItems_state st) as [l|text b]; simpl;
    intros H; [reflexivity | now contradiction H].
Qed.

(** The save effect keeps the invariant: it writes only on a non-empty
    menu. *)
Lemma save_effect_invariant slot st :
  persistence_invariant slot st -> persistence_invariant slot (exec save_effect st).
Proof.
  intros [Hlog Hslot]. run_effect.
  destruct (length_positive (menuItems_state st)) eqn:E; simpl; [|now split].
  pose proof (has_dishes_snapshot st E) as Hd. split.
  - apply Forall_app. split; [assumption | now constructor].
  - right. right. exists (snapshot st). split; [reflexivity | exact Hd].
Qed.

(** No handler calls [setItem]; the only other thing a handler does to the
    slot is erase it. *)
Lemma handler_invariant slot e st :
  persistence_invariant slot st -> persistence_invariant slot (exec (handler e) st).
Proof.
  intros [Hlog Hslot].
  destruct e; unfold exec, handler, bind; simpl; split; try assumption.
  now left.
Qed.

Lemma exec_bind {A B : Type} (c : Eff A) (k : A -> Eff B) st a :
  fst (c st) = Normal a -> exec (bind c k) st = exec (k a) (exec c st).
Proof.
  unfold exec, bind. destruct (c st) as [[a'|x] st']; simpl; [|discriminate].
  now intros [= ->].
Qed.

Lemma handler_normal e st : fst (handler e st) = Normal tt.
Proof. now destruct e. Qed.

Lemma step_invariant slot e st :
  persistence_invariant slot st -> persistence_invariant slot (step e st).
Proof.
  intros Hinv. unfold step.
  rewrite (exec_bind _ _ _ tt) by apply handler_normal.
  apply (handler_invariant slot e) in Hinv.
  destruct (sets_dependency e); [now apply save_effect_invariant | exact Hinv].
Qed.

(** The load effect always completes normally: whatever it throws inside is
    caught. *)
Lemma load_effect_normal st : fst (load_effect st) = Normal tt.
Proof.
  run_effect.
  destruct (localStorage st) as [[| |[|o]]|]; try reflexivity.
  simpl. destruct (menuItems_member o) as [v|]; try reflexivity.
  destruct (length_truthy v); try reflexivity.
  simpl. destruct (order_member o) as [[l|]|]; reflexivity.
Qed.

Lemma load_effect_invariant slot :
  persistence_invariant slot (exec load_effect (initial slot)).
Proof.
  run_effect.
  destruct slot as [[| |[|o]]|]; simpl;
    try (split; [constructor | (now left) || (right; now left)]).
  destruct (menuItems_member o) as [v|]; simpl;
    try (split; [constructor | right; now left]).
  destruct (length_truthy v); simpl;
    try (split; [constructor | right; now left]).
  destruct (order_member o) as [[l|]|]; simpl;
    (split; [constructor | (now left) || (right; now left)]).
Qed.

Lemma mount_invariant slot : persistence_invariant slot (mount slot).
Proof.
  unfold mount. rewrite (exec_bind _ _ _ tt) by apply load_effect_normal.
  apply save_effect_invariant, load_effect_invariant.
Qed.

Lemma run_from_invariant slot events : forall st,
  persistence_invariant slot st ->
  persistence_invariant slot (fold_left (fun st e => step e st) events st).
Proof.
  induction events as [|e events IH]; simpl; intros st Hinv; [assumption|].
  apply IH. now apply step_invariant.
Qed.

(** Every state the application can be in has the invariant. *)
Lemma reachable_invariant st :
  reachable st -> exists slot, persistence_invariant slot st.
Proof.
  intros (slot & events & ->). exists slot.
  apply run_from_invariant, mount_invariant.
Qed.

End PersistenceFacts.

(** Claim C9. In every state the application can reach, from any initial
    content of the slot and through any sequence of events, every write to
    the slot carried a non-empty dish list ([menuItems.length > 0]), and the
    slot holds either nothing, its initial content, or a snapshot with a
    non-empty dish list: an empty catalog is never persisted. *)
Theorem save_only_nonempty_catalog (slot : option App.SlotText) (events : list App.Event) :
  Forall has_dishes (App.setItem_calls (App.run slot events))
  /\ slot_content_ok slot (App.run slot events).
Proof.
  apply run_from_invariant, mount_invariant.
Qed.

(** Claim C2. When the save effect runs on a state with a non-empty dish
    list, what it leaves in the slot makes the load effect of a fresh
    application restore the same dishes, the same restaurant name and
    location, and a ledger with the same (identity, quantity) entries in the
    same order. *)
Theorem save_load_roundtrip (st : App.t) :
  App.menuItems st <> [] ->
  JsMap.wf (App.order st) ->
  App.menuItems
    (snd (App.load (App.localStorage (App.exec App.save_effect st)))) = App.menuItems st
  /\ App.restaurantName
       (snd (App.load (App.localStorage (App.exec App.save_effect st))))
     = App.restaurantName st
  /\ App.restaurantLocation
       (snd (App.load (App.localStorage (App.exec App.save_effect st))))
     = App.restaurantLocation st
  /\ JsMap.entries
       (App.order (snd (App.load (App.localStorage (App.exec App.save_effect st)))))
     = JsMap.entries (App.order st)
  /\ App.appState
       (snd (App.load (App.localStorage (App.exec App.save_effect st))))
     = App.MENU_VIEW.
Proof.
  intros Hne Hwf.
  unfold App.exec, App.save_effect, App.bind, App.get_state.
  unfold App.menuItems in Hne |- *.
  destruct (App.menuItems_state st) as [[|d ds]|text b] eqn:Hitems;
    simpl in Hne; [congruence| |congruence].
  simpl. unfold App.load, App.load_effect, App.bind, App.try_catch. simpl.
  rewrite Hitems. simpl.
  repeat split; try reflexivity.
  apply of_entries_entries, Hwf.
Qed.

Lemma save_load_roundtrip_witness :
  App.menuItems
    (snd (App.load (App.localStorage (App.exec App.save_effect pho_session)))) = [pho; tea]
  /\ JsMap.entries
       (App.order (snd (App.load (App.localStorage (App.exec App.save_effect pho_session)))))
     = [("Tea", 1); ("Pho", 2)]%string.
Proof.
  assert (Hne : App.menuItems pho_session <> []) by discriminate.
  assert (Hwf : JsMap.wf (App.order pho_session)).
  { repeat constructor; simpl; intuition discriminate. }
  destruct (save_load_roundtrip pho_session Hne Hwf) as (Hitems & _ & _ & Horder & _).
  split; [exact Hitems | exact Horder].
Defined.

(** Claim C8, as amended. The load effect never lets an exception escape.
    When the slot holds non-empty text that [JSON.parse] rejects, or the
    JSON text [null], it reports no prior session and erases the slot. When
    the slot holds JSON whose [menuItems] is missing or has a missing or
    falsy [length] (the empty array included), it reports no prior session
    and leaves the slot as it is. When [menuItems] has a truthy [length], it
    is installed as the menu whatever it is, an array of dishes or not;
    then, unless [order] is something [new Map] rejects, the menu view is
    entered and the slot is left as it is, and if [order] is such a thing,
    the exception is caught, the upload view stays and the slot is erased. *)
Theorem load_catches_and_erases_unparseable (slot : option App.SlotText) :
  fst (App.load slot) = App.Normal tt
  /\ (slot = Some App.NotJson \/ slot = Some (App.JsonText App.JNull) ->
      App.no_prior_session (snd (App.load slot))
      /\ App.localStorage (snd (App.load slot)) = None)
  /\ (forall o : App.Stored,
        slot = Some (App.JsonText (App.JObject o)) ->
        App.menuItems_member o = None
        \/ App.menuItems_member o = Some (App.Dishes []) ->
        App.no_prior_session (snd (App.load slot))
        /\ App.localStorage (snd (App.load slot)) = slot)
  /\ (forall (o : App.Stored) (v : App.MenuItemsValue),
        slot = Some (App.JsonText (App.JObject o)) ->
        App.menuItems_member o = Some v ->
        App.length_truthy v = true ->
        App.menuItems_state (snd (App.load slot)) = v
        /\ (App.order_member o <> Some App.NotIterable ->
            App.appState (snd (App.load slot)) = App.MENU_VIEW
            /\ App.localStorage (snd (App.load slot)) = slot)
        /\ (App.order_member o = Some App.NotIterable ->
            App.appState (snd (App.load slot)) = App.UPLOAD
            /\ App.localStorage (snd (App.load slot)) = None)).
Proof.
  split; [apply load_effect_normal|]. split; [|split].
  - intros [-> | ->]; split; try split; reflexivity.
  - intros o -> Hitems.
    unfold App.load, App.load_effect, App.bind, App.try_catch. simpl.
    destruct Hitems as [-> | ->]; split; try split; reflexivity.
  - intros o v -> Hitems Hlen.
    unfold App.load, App.load_effect, App.bind, App.try_catch. simpl.
    rewrite Hitems, Hlen. simpl.
    destruct (App.order_member o) as [[l|]|]; simpl;
      (split; [reflexivity|]); split; intros Hok;
      try discriminate Hok; try (now contradiction Hok); split; reflexivity.
Qed.

Lemma load_catches_and_erases_unparseable_witness :
  (App.no_prior_session (snd (App.load (Some App.NotJson)))
   /\ App.localStorage (snd (App.load (Some App.NotJson))) = None)
  /\ (App.menuItems_state (snd (App.load (Some (App.JsonText (App.JObject abc_object)))))
      = App.NotDishes "abc" true
      /\ App.appState (snd (App.load (Some (App.JsonText (App.JObject abc_object)))))
         = App.MENU_VIEW).
Proof.
  split.
  - destruct (load_catches_and_erases_unparseable (Some App.NotJson)) as (_ & Herase & _).
    apply Herase. left. reflexivity.
  - destruct (load_catches_and_erases_unparseable
                (Some (App.JsonText (App.JObject abc_object))))
      as (_ & _ & _ & Hinstall).
    destruct (Hinstall abc_object (App.NotDishes "abc" true)) as (Hmenu & Hview & _);
      [reflexivity | reflexivity | reflexivity |].
    split; [exact Hmenu|].
    apply Hview. simpl. discriminate.
Defined.

(** Claim C8 as stated fails: the content [{}] lacks every required field,
    yet the load effect leaves it in the slot. *)
Lemma load_keeps_slot_without_menuItems :
  App.localStorage (snd (App.load (Some (App.JsonText (App.JObject empty_object))))) <> None.
Proof. vm_compute. discriminate. Qed.

(** Content with dishes and an [order] that [new Map] rejects: the dishes
    and names set before the exception stay set, the view stays [UPLOAD],
    and the slot is erased. Content whose [menuItems] is the string ["abc"]
    is taken for a session. *)
Example load_order_not_iterable :
  let st := snd (App.load (Some (App.JsonText (App.JObject
              {| App.menuItems_member := Some (App.Dishes [pho]);
                 App.restaurantName_member := None;
                 App.restaurantLocation_member := None;
                 App.order_member := Some App.NotIterable |})))) in
  App.menuItems st = [pho] /\ App.appState st = App.UPLOAD /\ App.localStorage st = None
  /\ ~ App.no_prior_session (snd (App.load (Some (App.JsonText (App.JObject abc_object))))).
Proof. repeat split. intros [H _]. discriminate H. Qed.

(** Claim C10. For every ledger, identity and delta, an adjustment leaves the
    entry and the quantity of every other identity as they were, and changes
    neither the dishes nor the restaurant name and location. *)
Theorem adjust_frame (st : App.t) (id : string) (delta : Z) :
  JsMap.wf (App.order st) ->
  (forall other : string, other <> id ->
     JsMap.get other (App.order (App.step (App.UpdateOrder id delta) st))
     = JsMap.get other (App.order st)
     /\ quantity other (App.order (App.step (App.UpdateOrder id delta) st))
        = quantity other (App.order st))
  /\ App.menuItems (App.step (App.UpdateOrder id delta) st) = App.menuItems st
  /\ App.restaurantName (App.step (App.UpdateOrder id delta) st) = App.restaurantName st
  /\ App.restaurantLocation (App.step (App.UpdateOrder id delta) st)
     = App.restaurantLocation st.
Proof.
  intros Hwf.
  unfold App.step, App.exec, App.handler, App.sets_dependency, App.save_effect,
    App.get_state, App.bind, App.setOrder.
  cbn [fst snd App.menuItems_state].
  assert (Hother : forall other : string, other <> id ->
            JsMap.get other (handleUpdateOrder id delta (App.order st))
            = JsMap.get other (App.order st)
            /\ quantity other (handleUpdateOrder id delta (App.order st))
               = quantity other (App.order st)).
  { intros other Hne. unfold quantity.
    now rewrite get_handleUpdateOrder_other. }
  destruct (App.length_positive (App.menuItems_state st)); simpl;
    (split; [exact Hother | repeat split]).
Qed.

Lemma adjust_frame_witness :
  quantity "Tea" (App.order (App.step (App.UpdateOrder "Pho" (-2)) pho_session)) = 1
  /\ App.menuItems (App.step (App.UpdateOrder "Pho" (-2)) pho_session) = [pho; tea].
Proof.
  assert (Hwf : JsMap.wf (App.order pho_session)).
  { repeat constructor; simpl; intuition discriminate. }
  destruct (adjust_frame pho_session "Pho" (-2) Hwf) as (Hother & Hitems & _).
  split; [|exact Hitems].
  destruct (Hother "Tea"%string) as [_ Hq]; [discriminate | exact Hq].
Defined.

Lemma orphan_entry_views_witness :
  cartItems [("Pho", 2); ("Bun Cha", 3); ("Tea", 1)]%string [pho; tea]
  = cartItems [("Pho", 2); ("Tea", 1)]%string [pho; tea]
  /\ totalItems [("Pho", 2); ("Bun Cha", 3); ("Tea", 1)]%string
     = totalItems [("Pho", 2); ("Tea", 1)]%string + 3.
Proof.
  assert (Horphan : find_item "Bun Cha" [pho; tea] = None) by reflexivity.
  destruct (orphan_entry_views [pho; tea] [("Pho", 2)]%string [("Tea", 1)]%string
              "Bun Cha" 3 Horphan) as (_ & Hsame & _ & Hcount).
  split; [exact Hsame | exact Hcount].
Defined.

(* ===================================================================== *)
(** * Further properties of the code *)
(* ===================================================================== *)

(** ** The ledger: entry order and item count *)

Section LedgerOrderFacts.

Import JsMap.

Lemma keys_set_present k v m :
  In k (keys m) -> keys (set k v m) = keys m.
Proof.
  induction m as [|[k' v'] m IH]; simpl; [tauto|].
  destruct (String.eqb_spec k' k) as [->|Hne]; simpl; [reflexivity|].
  intros [Heq|Hin]; [congruence|]. now rewrite IH.
Qed.

Lemma keys_delete k m :
  keys (delete k m) = filter (fun k' => negb (String.eqb k' k)) (keys m).
Proof.
  induction m as [|[k' v'] m IH]; simpl; [reflexivity|].
  destruct (String.eqb k' k); simpl; now rewrite IH.
Qed.

Lemma of_entries_from_wf l : forall acc,
  wf acc -> wf (fold_left (fun m e => set (fst e) (snd e) m) l acc).
Proof.
  induction l as [|e l IH]; simpl; intros acc Hwf; [assumption|].
  apply IH. now apply wf_set.
Qed.

(** [new Map(iterable)] is a Map whatever the iterable repeats. *)
Lemma of_entries_wf l : wf (of_entries l).
Proof. apply of_entries_from_wf. constructor. Qed.

Lemma totalItems_cons k v m : totalItems ((k, v) :: m) = v + totalItems m.
Proof. unfold totalItems, values. simpl. now rewrite totalItems_from. Qed.

Lemma totalItems_set k v m :
  wf m -> totalItems (set k v m) = totalItems m - quantity k m + v.
Proof.
  unfold wf. induction m as [|[k' v'] m IH]; intros Hwf.
  - reflexivity.
  - inversion Hwf as [|? ? Hnin Hnd]; subst. simpl in Hnin.
    unfold quantity. simpl.
    destruct (String.eqb_spec k' k) as [->|Hne].
    + rewrite !totalItems_cons. simpl. destruct (Z.eqb_spec v' 0); lia.
    + rewrite !totalItems_cons, IH by assumption. unfold quantity. lia.
Qed.

Lemma totalItems_delete k m :
  wf m -> totalItems (delete k m) = totalItems m - quantity k m.
Proof.
  unfold wf. induction m as [|[k' v'] m IH]; intros Hwf.
  - reflexivity.
  - inversion Hwf as [|? ? Hnin Hnd]; subst. simpl in Hnin.
    unfold quantity. simpl.
    destruct (String.eqb_spec k' k) as [->|Hne].
    + rewrite totalItems_cons, IH by assumption.
      unfold quantity. apply get_none_iff in Hnin. rewrite Hnin. simpl.
      destruct (Z.eqb_spec v' 0); lia.
    + rewrite !totalItems_cons, IH by assumption. unfold quantity. lia.
Qed.

Lemma positive_total m : positive_entries m -> (totalItems m = 0 <-> m = []).
Proof.
  intros Hpos. split; [|now intros ->].
  destruct m as [|[k v] m]; [reflexivity|]. intros Htot. exfalso.
  inversion Hpos as [|? ? Hv Hm]; subst. simpl in Hv.
  rewrite totalItems_cons in Htot.
  assert (Hge : 0 <= totalItems m).
  { clear - Hm. induction Hm as [|[k' v'] m Hv' Hm IH]; [reflexivity|].
    rewrite totalItems_cons. simpl in Hv'. lia. }
  lia.
Qed.

End LedgerOrderFacts.

(** The cart keeps insertion order. An adjustment that leaves a positive
    quantity keeps the order of the entries when the dish is already in the
    ledger and puts the dish last when it is new; an adjustment that leaves
    nothing removes the dish and keeps the order of the others. *)
Theorem adjust_entry_order (name : string) (delta : Z) (m : JsMap.t) :
  JsMap.wf m ->
  JsMap.keys (handleUpdateOrder name delta m)
  = if quantity name m + delta <=? 0
    then filter (fun k => negb (String.eqb k name)) (JsMap.keys m)
    else match JsMap.get name m with
         | Some _ => JsMap.keys m
         | None => JsMap.keys m ++ [name]
         end.
Proof.
  intros Hwf. rewrite handleUpdateOrder_eq by assumption.
  destruct (quantity name m + delta <=? 0).
  - apply keys_delete.
  - destruct (JsMap.get name m) as [q|] eqn:E.
    + apply keys_set_present.
      apply get_some_in in E. apply (in_map fst) in E. exact E.
    + apply get_none_iff in E. rewrite keys_set_fresh by assumption.
      unfold JsMap.keys. now rewrite map_app.
Qed.

Lemma adjust_entry_order_witness :
  JsMap.keys (handleUpdateOrder "Pho" 1 [("Pho", 1); ("Tea", 2)]%string) = ["Pho"; "Tea"]%string
  /\ JsMap.keys (handleUpdateOrder "Bun Cha" 1 [("Pho", 1); ("Tea", 2)]%string)
     = ["Pho"; "Tea"; "Bun Cha"]%string
  /\ JsMap.keys (handleUpdateOrder "Pho" (-1) [("Pho", 1); ("Tea", 2)]%string) = ["Tea"]%string.
Proof.
  assert (Hwf : JsMap.wf [("Pho", 1); ("Tea", 2)]%string).
  { repeat constructor; simpl; intuition discriminate. }
  split; [|split].
  - exact (adjust_entry_order "Pho" 1 _ Hwf).
  - exact (adjust_entry_order "Bun Cha" 1 _ Hwf).
  - exact (adjust_entry_order "Pho" (-1) _ Hwf).
Defined.

(** The item count moves by what the adjustment really changed: the old
    quantity of the dish is replaced by the new one, floored at zero. In
    particular a removal on an absent dish leaves the count as it is. *)
Theorem adjust_item_count (name : string) (delta : Z) (m : JsMap.t) :
  JsMap.wf m ->
  totalItems (handleUpdateOrder name delta m)
  = totalItems m - quantity name m + Z.max 0 (quantity name m + delta).
Proof.
  intros Hwf. rewrite handleUpdateOrder_eq by assumption.
  destruct (Z.leb_spec (quantity name m + delta) 0).
  - rewrite totalItems_delete by assumption. lia.
  - rewrite totalItems_set by assumption. lia.
Qed.

Lemma adjust_item_count_witness :
  totalItems (handleUpdateOrder "Tea" 1 [("Pho", 1); ("Tea", 2)]%string) = 4
  /\ totalItems (handleUpdateOrder "Bun Cha" (-1) [("Pho", 1); ("Tea", 2)]%string) = 3.
Proof.
  assert (Hwf : JsMap.wf [("Pho", 1); ("Tea", 2)]%string).
  { repeat constructor; simpl; intuition discriminate. }
  split.
  - exact (adjust_item_count "Tea" 1 _ Hwf).
  - exact (adjust_item_count "Bun Cha" (-1) _ Hwf).
Defined.

Lemma quantity_offered_calls_empty_witness :
  quantity "Pho" (apply_calls [("Pho", 1); ("Tea", 1); ("Pho", 1); ("Pho", -1)]%string JsMap.empty)
  = Z.max 0 (sum_deltas (deltas_for "Pho"
      [("Pho", 1); ("Tea", 1); ("Pho", 1); ("Pho", -1)]%string)).
Proof.
  apply quantity_offered_calls_empty.
  simpl. unfold quantity. simpl. intuition lia.
Defined.

(** ** The application: what every run keeps *)

Section RunFacts.

Import App.

(** Expose the state an event leaves, up to the guard of the save effect. *)
Ltac run_step :=
  unfold step, exec, handler, sets_dependency, save_effect, get_state, bind,
    setOrder, setMenuItems, setRestaurantName, setRestaurantLocation, setAppState,
    localStorage_removeItem, localStorage_setItem, ret;
  cbn [fst snd appState menuItems_state restaurantName restaurantLocation order
       localStorage setItem_calls].

(** The save effect touches the slot and nothing else. *)
Lemma save_effect_frame st :
  appState (exec save_effect st) = appState st
  /\ menuItems (exec save_effect st) = menuItems st
  /\ restaurantName (exec save_effect st) = restaurantName st
  /\ restaurantLocation (exec save_effect st) = restaurantLocation st
  /\ order (exec save_effect st) = order st.
Proof.
  unfold exec, save_effect, bind, get_state.
  destruct (length_positive (menuItems_state st)); repeat split.
Qed.

Lemma save_effect_in_sync st : in_sync (exec save_effect st).
Proof.
  unfold in_sync, exec, save_effect, bind, get_state.
  destruct (length_positive (menuItems_state st)) eqn:E; simpl.
  - intros _. reflexivity.
  - intros Hne. apply menuItems_length_positive in Hne. congruence.
Qed.

(** What an event leaves in [order]. *)
Lemma step_order e st :
  order (step e st)
  = match e with
    | UpdateOrder name delta => handleUpdateOrder name delta (order st)
    | MenuParsed _ => JsMap.of_entries []
    | _ => order st
    end.
Proof.
  destruct e; run_step; try reflexivity;
    match goal with |- context [if ?b then _ else _] => destruct b end; reflexivity.
Qed.

Lemma step_in_sync e st : in_sync st -> in_sync (step e st).
Proof.
  intros Hsync.
  destruct e;
    try (unfold step; rewrite (exec_bind _ _ _ tt) by apply handler_normal;
         apply save_effect_in_sync);
    run_step; exact Hsync.
Qed.

Lemma load_effect_order_wf slot : JsMap.wf (order (exec load_effect (initial slot))).
Proof.
  unfold exec, load_effect, bind, localStorage_getItem, try_catch. simpl.
  destruct slot as [[| |[|o]]|]; simpl; try constructor.
  destruct (menuItems_member o) as [v|]; simpl; try constructor.
  destruct (length_truthy v); simpl; try constructor.
  destruct (order_member o) as [[l|]|]; simpl; try constructor.
  apply of_entries_wf.
Qed.

Lemma mount_order slot : order (mount slot) = order (exec load_effect (initial slot)).
Proof.
  unfold mount. rewrite (exec_bind _ _ _ tt) by apply load_effect_normal.
  apply save_effect_frame.
Qed.

Lemma mount_in_sync slot : in_sync (mount slot).
Proof.
  unfold mount. rewrite (exec_bind _ _ _ tt) by apply load_effect_normal.
  apply save_effect_in_sync.
Qed.

Lemma step_order_wf e st : JsMap.wf (order st) -> JsMap.wf (order (step e st)).
Proof.
  intros Hwf. rewrite step_order.
  destruct e; try assumption; [constructor | now apply handleUpdateOrder_wf].
Qed.

Lemma step_order_positive e st :
  JsMap.wf (order st) -> positive_entries (order st) ->
  positive_entries (order (step e st)).
Proof.
  intros Hwf Hpos. rewrite step_order.
  destruct e; try assumption; [constructor | now apply handleUpdateOrder_positive].
Qed.

Lemma run_from_keeps (P : t -> Prop) events :
  (forall e st, P st -> P (step e st)) ->
  forall st, P st -> P (run_from events st).
Proof.
  intros Hstep. unfold run_from.
  induction events as [|e events IH]; simpl; intros st HP; [assumption|].
  apply IH, Hstep, HP.
Qed.

Lemma run_order_wf slot events : JsMap.wf (order (run slot events)).
Proof.
  apply (run_from_keeps (fun st => JsMap.wf (order st)) events).
  - apply step_order_wf.
  - rewrite mount_order. apply load_effect_order_wf.
Qed.

Lemma run_in_sync slot events : in_sync (run slot events).
Proof.
  apply (run_from_keeps in_sync events); [apply step_in_sync | apply mount_in_sync].
Qed.

(** Mounting over the snapshot of a state with a menu restores that state,
    in the menu view. *)
Lemma mount_snapshot st :
  menuItems st <> [] -> JsMap.wf (order st) ->
  menuItems (mount (Some (JsonText (JObject (snapshot st))))) = menuItems st
  /\ restaurantName (mount (Some (JsonText (JObject (snapshot st))))) = restaurantName st
  /\ restaurantLocation (mount (Some (JsonText (JObject (snapshot st)))))
     = restaurantLocation st
  /\ order (mount (Some (JsonText (JObject (snapshot st))))) = order st
  /\ appState (mount (Some (JsonText (JObject (snapshot st))))) = MENU_VIEW.
Proof.
  intros Hne Hwf.
  unfold mount. rewrite (exec_bind _ _ _ tt) by apply load_effect_normal.
  destruct (save_effect_frame
              (exec load_effect (initial (Some (JsonText (JObject (snapshot st)))))))
    as (-> & -> & -> & -> & ->).
  unfold exec, load_effect, bind, localStorage_getItem, try_catch. simpl.
  unfold menuItems in Hne |- *.
  destruct (menuItems_state st) as [[|d ds]|text b] eqn:E; simpl in Hne;
    [congruence| |congruence]. simpl.
  repeat split. apply of_entries_entries, Hwf.
Qed.

End RunFacts.

(** After every event the slot is up to date: in every state the
    application reaches, from any initial content of the slot, a state with
    a menu has its own snapshot in the slot. *)
Theorem slot_in_sync (slot : option App.SlotText) (events : list App.Event) :
  App.menuItems (App.run slot events) <> [] ->
  App.localStorage (App.run slot events)
  = Some (App.JsonText (App.JObject (App.snapshot (App.run slot events)))).
Proof. apply run_in_sync. Qed.

Lemma slot_in_sync_witness :
  App.localStorage
    (App.run None [App.MenuParsed {| App.result_restaurantName := ""; App.items := [pho; tea] |};
                   App.UpdateOrder "Pho" 2; App.RestaurantSaved "Saigon" "Lyon"]%string)
  = Some (App.JsonText (App.JObject
      {| App.menuItems_member := Some (App.Dishes [pho; tea]);
         App.restaurantName_member := Some "Saigon"%string;
         App.restaurantLocation_member := Some "Lyon"%string;
         App.order_member := Some (App.OrderEntries [("Pho", 2)]%string) |})).
Proof.
  apply (slot_in_sync None
    [App.MenuParsed {| App.result_restaurantName := ""; App.items := [pho; tea] |};
     App.UpdateOrder "Pho" 2; App.RestaurantSaved "Saigon" "Lyon"]%string).
  discriminate.
Defined.

(** Closing and reopening the application loses nothing: whatever the run,
    if it ends with a menu, a fresh application mounted over the slot it
    leaves comes up in the menu view with the same dishes, restaurant name
    and location, and the same ledger entries in the same order. *)
Theorem reload_restores_session (slot : option App.SlotText) (events : list App.Event) :
  App.menuItems (App.run slot events) <> [] ->
  App.menuItems (App.mount (App.localStorage (App.run slot events)))
  = App.menuItems (App.run slot events)
  /\ App.restaurantName (App.mount (App.localStorage (App.run slot events)))
     = App.restaurantName (App.run slot events)
  /\ App.restaurantLocation (App.mount (App.localStorage (App.run slot events)))
     = App.restaurantLocation (App.run slot events)
  /\ App.order (App.mount (App.localStorage (App.run slot events)))
     = App.order (App.run slot events)
  /\ App.appState (App.mount (App.localStorage (App.run slot events))) = App.MENU_VIEW.
Proof.
  intros Hne. rewrite (run_in_sync slot events Hne).
  apply mount_snapshot; [exact Hne | apply run_order_wf].
Qed.

Lemma reload_restores_session_witness :
  App.order
    (App.mount (App.localStorage
       (App.run None [App.MenuParsed {| App.result_restaurantName := ""; App.items := [pho; tea] |};
                      App.UpdateOrder "Tea" 1; App.UpdateOrder "Pho" 2;
                      App.ShowRecommendations]%string)))
  = [("Tea", 1); ("Pho", 2)]%string.
Proof.
  assert (Hne : App.menuItems
    (App.run None [App.MenuParsed {| App.result_restaurantName := ""; App.items := [pho; tea] |};
                   App.UpdateOrder "Tea" 1; App.UpdateOrder "Pho" 2;
                   App.ShowRecommendations]%string) <> []) by discriminate.
  destruct (reload_restores_session _ _ Hne) as (_ & _ & _ & Horder & _).
  exact Horder.
Defined.

(** No quantity that is zero or negative is ever stored: if the ledger the
    application mounts with has positive quantities only (as when nothing
    was saved), so has every ledger it reaches, and the item count is zero
    exactly when the ledger is empty. *)
Theorem ledger_quantities_positive (slot : option App.SlotText) (events : list App.Event) :
  positive_entries (App.order (App.mount slot)) ->
  positive_entries (App.order (App.run slot events))
  /\ (totalItems (App.order (App.run slot events)) = 0
      <-> App.order (App.run slot events) = []).
Proof.
  intros Hpos.
  assert (H : JsMap.wf (App.order (App.run slot events))
              /\ positive_entries (App.order (App.run slot events))).
  { apply (run_from_keeps
             (fun st => JsMap.wf (App.order st) /\ positive_entries (App.order st))
             events).
    - intros e st [Hwf Hp]. split;
        [now apply step_order_wf | now apply step_order_positive].
    - split; [|exact Hpos]. rewrite mount_order. apply load_effect_order_wf. }
  destruct H as [_ Hp]. split; [exact Hp | now apply positive_total].
Qed.

Lemma ledger_quantities_positive_witness :
  positive_entries
    (App.order (App.run None [App.UpdateOrder "Pho" 1; App.UpdateOrder "Pho" (-3);
                              App.UpdateOrder "Tea" 2]%string)).
Proof.
  apply (ledger_quantities_positive None
           [App.UpdateOrder "Pho" 1; App.UpdateOrder "Pho" (-3); App.UpdateOrder "Tea" 2]%string).
  constructor.
Defined.

(** ** The "new scan" button *)

Section NewScanFacts.

Import App.

Ltac run_step :=
  unfold step, exec, handler, sets_dependency, save_effect, get_state, bind,
    setOrder, setMenuItems, setRestaurantName, setRestaurantLocation, setAppState,
    localStorage_removeItem, localStorage_setItem, ret;
  cbn [fst snd appState menuItems_state restaurantName restaurantLocation order
       localStorage setItem_calls].

(** Without a menu, an event other than a parsed menu writes nothing and
    leaves the application without a menu. *)
Lemma step_without_menu e st :
  (forall r, e <> MenuParsed r) ->
  menuItems_state st = Dishes [] ->
  menuItems_state (step e st) = Dishes []
  /\ setItem_calls (step e st) = setItem_calls st
  /\ (localStorage st = None -> localStorage (step e st) = None).
Proof.
  intros Hne Hmenu.
  destruct e; try (exfalso; eapply Hne; reflexivity);
    run_step; rewrite ?Hmenu; simpl; auto.
Qed.

Lemma cartItems_no_menu (m : JsMap.t) : cartItems m [] = [].
Proof. induction m as [|e m IH]; [reflexivity|]. now rewrite cartItems_cons. Qed.

End NewScanFacts.

(** Once "new scan" is pressed the saved session is gone for good: whatever
    follows, short of a menu being parsed, the application has no menu, the
    slot stays empty and nothing is written to it. *)
Theorem new_scan_stays_erased (st : App.t) (events : list App.Event) :
  Forall (fun e => forall r, e <> App.MenuParsed r) events ->
  App.menuItems (run_from events (App.step App.NewScan st)) = []
  /\ App.localStorage (run_from events (App.step App.NewScan st)) = None
  /\ App.setItem_calls (run_from events (App.step App.NewScan st)) = App.setItem_calls st.
Proof.
  intros Hev.
  assert (H0 : App.menuItems_state (App.step App.NewScan st) = App.Dishes []
               /\ App.localStorage (App.step App.NewScan st) = None
               /\ App.setItem_calls (App.step App.NewScan st) = App.setItem_calls st).
  { repeat split. }
  revert H0. generalize (App.step App.NewScan st) as st0.
  unfold run_from. induction Hev as [|e events He Hev IH]; intros st0 H0.
  { destruct H0 as (Hm & Hs & Hl). unfold App.menuItems. simpl. now rewrite Hm. }
  simpl. apply IH.
  destruct H0 as (Hm & Hs & Hl).
  destruct (step_without_menu e st0 He Hm) as (Hm' & Hl' & Hs').
  split; [exact Hm'|]. split; [now apply Hs' | congruence].
Qed.

Lemma new_scan_stays_erased_witness :
  App.localStorage
    (run_from [App.UpdateOrder "Pho" 1; App.RestaurantSaved "Saigon" "Lyon"; App.FileSelected;
               App.MenuParseFailed]%string
       (App.step App.NewScan pho_session)) = None.
Proof.
  apply (new_scan_stays_erased pho_session
           [App.UpdateOrder "Pho" 1; App.RestaurantSaved "Saigon" "Lyon"; App.FileSelected;
            App.MenuParseFailed]%string).
  repeat constructor; discriminate.
Defined.

(** "New scan" empties the menu and erases the slot but keeps the ledger
    and the restaurant name and location: the item count still counts the
    old order, while the order summary has no line to show, totals zero and
    falls back to the ["$"] symbol. *)
Theorem new_scan_keeps_ledger (st : App.t) :
  App.menuItems (App.step App.NewScan st) = []
  /\ App.appState (App.step App.NewScan st) = App.UPLOAD
  /\ App.localStorage (App.step App.NewScan st) = None
  /\ App.order (App.step App.NewScan st) = App.order st
  /\ App.restaurantName (App.step App.NewScan st) = App.restaurantName st
  /\ App.restaurantLocation (App.step App.NewScan st) = App.restaurantLocation st
  /\ totalItems (App.order (App.step App.NewScan st)) = totalItems (App.order st)
  /\ cartItems (App.order (App.step App.NewScan st)) (App.menuItems (App.step App.NewScan st))
     = []
  /\ cartTotal (App.order (App.step App.NewScan st)) (App.menuItems (App.step App.NewScan st))
     = 0%Q
  /\ currencySymbol (App.order (App.step App.NewScan st))
       (App.menuItems (App.step App.NewScan st)) = "$"%string.
Proof.
  assert (Hm : App.menuItems (App.step App.NewScan st) = []) by reflexivity.
  assert (Ho : App.order (App.step App.NewScan st) = App.order st) by reflexivity.
  rewrite Hm, Ho. unfold cartTotal, currencySymbol. rewrite cartItems_no_menu.
  repeat split.
Qed.

(** ** The bill splitter: party size and shares *)

Section SplitFacts.

Local Open Scope Q_scope.

Lemma click_split_ge_1 c n : (1 <= n)%Z -> (1 <= click_split n c)%Z.
Proof. destruct c; simpl; lia. Qed.

Lemma splitCount_from_ge_1 clicks : forall n,
  (1 <= n)%Z -> (1 <= fold_left click_split clicks n)%Z.
Proof.
  induction clicks as [|c clicks IH]; simpl; intros n Hn; [assumption|].
  apply IH, click_split_ge_1, Hn.
Qed.

Lemma more_people_from k : forall n,
  fold_left click_split (repeat MorePeople k) n = (n + Z.of_nat k)%Z.
Proof.
  induction k as [|k IH]; intros n; [simpl; lia|].
  cbn [repeat fold_left]. rewrite IH. unfold click_split. lia.
Qed.

(** [Math.max(1, splitCount)] is at least one, whatever [splitCount] is. *)
Lemma splitBy_ge_1 (billBase tipPercent splitCount : Q) :
  1 <= splitBy (bill billBase tipPercent splitCount).
Proof.
  unfold bill. cbn [splitBy Math_max lit Number_Q].
  change (inject_Z 1) with 1.
  destruct (Qle_bool 1 splitCount) eqn:E.
  - now apply Qle_bool_iff.
  - apply Qle_refl.
Qed.

End SplitFacts.

(** The party size never leaves the positive whole numbers: after any
    series of clicks on the two buttons it is at least 1, so
    [Math.max(1, splitCount)] changes nothing and the bill is divided by the
    party size shown; and every party size from 1 up can be set. *)
Theorem split_count_at_least_one (clicks : list SplitClick) (billBase tipPercent : Q) (k : nat) :
  1 <= splitCount_after clicks
  /\ (splitBy (bill billBase tipPercent (inject_Z (splitCount_after clicks)))
      == inject_Z (splitCount_after clicks))%Q
  /\ splitCount_after (repeat MorePeople k) = 1 + Z.of_nat k.
Proof.
  pose proof (splitCount_from_ge_1 clicks 1 (Z.le_refl 1)) as Hge.
  fold (splitCount_after clicks) in Hge.
  split; [exact Hge|]. split.
  - unfold bill. cbn [splitBy]. rewrite Math_max_party.
    now replace (Z.max 1 (splitCount_after clicks)) with (splitCount_after clicks) by lia.
  - apply more_people_from.
Qed.

(** The shares add up: for every bill, tip and party size, the bill share
    and the tip share of one person make that person's total, and the
    per-person bill share, tip share and total, times the number the bill is
    split by, give back the bill, the tip and the grand total (in exact
    arithmetic). *)
Theorem shares_add_up (billBase tipPercent splitCount : Q) :
  (perPersonBill (bill billBase tipPercent splitCount)
   + perPersonTip (bill billBase tipPercent splitCount)
   == perPersonTotal (bill billBase tipPercent splitCount)
   /\ perPersonBill (bill billBase tipPercent splitCount)
      * splitBy (bill billBase tipPercent splitCount) == billBase
   /\ perPersonTip (bill billBase tipPercent splitCount)
      * splitBy (bill billBase tipPercent splitCount)
      == tipAmount (bill billBase tipPercent splitCount)
   /\ perPersonTotal (bill billBase tipPercent splitCount)
      * splitBy (bill billBase tipPercent splitCount)
      == finalTotal (bill billBase tipPercent splitCount))%Q.
Proof.
  pose proof (splitBy_ge_1 billBase tipPercent splitCount) as Hge.
  assert (Hnz : ~ (splitBy (bill billBase tipPercent splitCount) == 0)%Q).
  { intros H0. rewrite H0 in Hge. now apply Qle_bool_iff in Hge. }
  revert Hnz. unfold bill.
  cbn [splitBy tipAmount finalTotal perPersonTotal perPersonBill perPersonTip
       num_add num_mul num_div lit Number_Q].
  generalize (Math_max (inject_Z 1) splitCount) as d. intros d Hd.
  change (inject_Z 100) with 100%Q.
  repeat split; field; exact Hd.
Qed.



(** ** Grouping the menu by category *)

Section GroupingFacts.

Lemma mem_iff c l : mem c l = true <-> In c l.
Proof.
  unfold mem. rewrite existsb_exists. split.
  - intros [x [Hin Heq]]. apply String.eqb_eq in Heq. now subst.
  - intros Hin. exists c. split; [assumption | apply String.eqb_refl].
Qed.

Lemma in_first_seen c l : In c (first_seen l) <-> In c l.
Proof.
  induction l as [|x l IH]; simpl; [tauto|].
  rewrite filter_In, IH. destruct (String.eqb_spec c x) as [->|Hne].
  - intuition.
  - simpl. intuition congruence.
Qed.

Lemma mem_first_seen c l : mem c (first_seen l) = mem c l.
Proof.
  destruct (in_first_seen c l) as [Hfrom Hto].
  destruct (mem c l) eqn:E.
  - apply mem_iff, Hto, mem_iff, E.
  - destruct (mem c (first_seen l)) eqn:E'; [|reflexivity].
    apply mem_iff, Hfrom, mem_iff in E'. congruence.
Qed.

Lemma first_seen_NoDup l : NoDup (first_seen l).
Proof.
  induction l as [|x l IH]; simpl; constructor.
  - rewrite filter_In, String.eqb_refl. simpl. intuition discriminate.
  - now apply NoDup_filter.
Qed.

Lemma first_seen_snoc l c :
  first_seen (l ++ [c]) = if mem c l then first_seen l else first_seen l ++ [c].
Proof.
  induction l as [|x l IH]; simpl; [reflexivity|].
  rewrite IH. unfold mem. simpl.
  destruct (String.eqb_spec c x) as [->|Hne]; simpl.
  - destruct (existsb (String.eqb x) l); [reflexivity|].
    rewrite filter_app. simpl. rewrite String.eqb_refl. simpl. now rewrite app_nil_r.
  - destruct (existsb (String.eqb c) l); [reflexivity|].
    rewrite filter_app. simpl.
    destruct (String.eqb_spec c x); [congruence | reflexivity].
Qed.

Lemma dishes_of_snoc c pre d :
  dishes_of c (pre ++ [d])
  = dishes_of c pre ++ (if String.eqb (category_of d) c then [d] else []).
Proof. unfold dishes_of. rewrite filter_app. reflexivity. Qed.

Lemma dishes_of_none c items : ~ In c (map category_of items) -> dishes_of c items = [].
Proof.
  unfold dishes_of. induction items as [|d items IH]; simpl; intros Hnin; [reflexivity|].
  destruct (String.eqb_spec (category_of d) c); [tauto|]. apply IH. tauto.
Qed.

Lemma dishes_of_some c items : In c (map category_of items) -> dishes_of c items <> [].
Proof.
  rewrite in_map_iff. intros [d [Hc Hin]] Hnil.
  assert (Hd : In d (dishes_of c items)).
  { unfold dishes_of. rewrite filter_In. split; [assumption|]. now apply String.eqb_eq. }
  rewrite Hnil in Hd. destruct Hd.
Qed.

Lemma own_property_map (F : string -> list MenuItem) c K :
  own_property c (map (fun k => (k, F k)) K) = if mem c K then Some (F c) else None.
Proof.
  unfold mem. induction K as [|k K IH]; simpl; [reflexivity|].
  rewrite (String.eqb_sym c k).
  destruct (String.eqb_spec k c) as [->|Hne]; simpl; [reflexivity | exact IH].
Qed.

Lemma push_own_map (F : string -> list MenuItem) x d K :
  NoDup K ->
  push_own x d (map (fun k => (k, F k)) K)
  = map (fun k => (k, F k ++ (if String.eqb x k then [d] else []))) K.
Proof.
  induction K as [|k K IH]; simpl; intros Hnd; [reflexivity|].
  inversion Hnd as [|? ? Hnin Hnd']; subst.
  rewrite (String.eqb_sym x k).
  destruct (String.eqb_spec k x) as [->|Hne].
  - f_equal. apply map_ext_in. intros k Hk.
    destruct (String.eqb_spec x k) as [->|_]; [tauto | now rewrite app_nil_r].
  - rewrite app_nil_r. f_equal. now apply IH.
Qed.

Lemma push_own_last x d ds (g : Groups) :
  ~ In x (map fst g) -> push_own x d (g ++ [(x, ds)]) = g ++ [(x, ds ++ [d])].
Proof.
  induction g as [|[k l] g IH]; simpl; intros Hnin.
  - now rewrite String.eqb_refl.
  - destruct (String.eqb_spec k x); [tauto|]. rewrite IH; tauto.
Qed.

Lemma sections_keys items : map fst (sections_of items) = first_seen (map category_of items).
Proof. unfold sections_of. rewrite map_map. simpl. apply map_id. Qed.

Variable inherited : string -> bool.

(** One more dish: the step of the reducer on the sections built so far. *)
Lemma group_step_sections pre d :
  (forall c, In c (map category_of pre) -> inherited c = false) ->
  group_step inherited (Some (sections_of pre)) d
  = if inherited (category_of d) then None else Some (sections_of (pre ++ [d])).
Proof.
  intros Hpre. unfold group_step.
  assert (Hsnoc : forall k,
            dishes_of k (pre ++ [d])
            = dishes_of k pre ++ (if String.eqb (category_of d) k then [d] else [])).
  { intros k. apply dishes_of_snoc. }
  unfold sections_of at 1. rewrite own_property_map.
  unfold sections_of. rewrite map_app.
  change (map category_of [d]) with [category_of d]. rewrite first_seen_snoc.
  rewrite mem_first_seen.
  destruct (mem (category_of d) (map category_of pre)) eqn:Em.
  - apply mem_iff in Em. rewrite (Hpre _ Em). f_equal.
    rewrite push_own_map by apply first_seen_NoDup.
    apply map_ext. intros k. now rewrite Hsnoc.
  - assert (Hnin : ~ In (category_of d) (map category_of pre)).
    { intros Hin. apply mem_iff in Hin. congruence. }
    destruct (inherited (category_of d)); [reflexivity|]. f_equal.
    rewrite push_own_last.
    + rewrite map_app. simpl. f_equal.
      * apply map_ext_in. intros k Hk. rewrite Hsnoc.
        destruct (String.eqb_spec (category_of d) k) as [<-|_];
          [apply (proj1 (in_first_seen _ _)) in Hk; tauto | now rewrite app_nil_r].
      * rewrite Hsnoc, String.eqb_refl, dishes_of_none by assumption. reflexivity.
    + rewrite map_map. simpl. rewrite map_id. now rewrite in_first_seen.
Qed.

Lemma fold_group_none items : fold_left (group_step inherited) items None = None.
Proof. induction items as [|d items IH]; [reflexivity | exact IH]. Qed.

Lemma fold_group_sections items : forall pre,
  (forall c, In c (map category_of pre) -> inherited c = false) ->
  fold_left (group_step inherited) items (Some (sections_of pre))
  = if existsb inherited (map category_of items) then None
    else Some (sections_of (pre ++ items)).
Proof.
  induction items as [|d items IH]; intros pre Hpre.
  - simpl. now rewrite app_nil_r.
  - cbn [fold_left map existsb]. rewrite group_step_sections by assumption.
    destruct (inherited (category_of d)) eqn:Ei; simpl.
    + apply fold_group_none.
    + rewrite IH.
      * now rewrite <- app_assoc.
      * intros c Hc. rewrite map_app in Hc. apply in_app_or in Hc.
        destruct Hc as [Hc|[<-|[]]]; [now apply Hpre | exact Ei].
Qed.

(** The reducer computes the sections, or throws. *)
Lemma grouped_eq items :
  grouped inherited items
  = if existsb inherited (map category_of items) then None else Some (sections_of items).
Proof.
  unfold grouped. change (Some []) with (Some (sections_of [])).
  rewrite fold_group_sections; [reflexivity | intros c []].
Qed.

Lemma grouped_some items g : grouped inherited items = Some g -> g = sections_of items.
Proof.
  rewrite grouped_eq. destruct (existsb _ _); [discriminate | congruence].
Qed.

End GroupingFacts.

Section SectionLengthFacts.

(** Each dish falls into one section: the lengths add up. *)
Lemma sections_length_cons K d items :
  NoDup K ->
  List.length (List.concat (map (fun c => dishes_of c (d :: items)) K))
  = ((if mem (category_of d) K then 1 else 0)
     + List.length (List.concat (map (fun c => dishes_of c items) K)))%nat.
Proof.
  unfold mem. induction K as [|k K IH]; intros HK; [reflexivity|].
  inversion HK as [|? ? Hnin HK']; subst.
  cbn [map List.concat existsb]. rewrite !length_app, IH by assumption.
  unfold dishes_of at 1. cbn [filter]. fold (dishes_of k items).
  destruct (String.eqb_spec (category_of d) k) as [Heq|Hne]; simpl.
  - subst k.
    destruct (existsb (String.eqb (category_of d)) K) eqn:E; [|reflexivity].
    apply mem_iff in E. tauto.
  - lia.
Qed.

Lemma sections_length_from K items :
  NoDup K ->
  (forall d, In d items -> In (category_of d) K) ->
  List.length (List.concat (map (fun c => dishes_of c items) K)) = List.length items.
Proof.
  intros HK. induction items as [|d items IH]; intros Hcover.
  - clear. induction K as [|k K IHK]; [reflexivity | exact IHK].
  - rewrite sections_length_cons by assumption.
    rewrite IH by (intros x Hx; apply Hcover; now right).
    assert (Hm : mem (category_of d) K = true).
    { apply mem_iff, Hcover. now left. }
    rewrite Hm. reflexivity.
Qed.

End SectionLengthFacts.

Section ObjectEntriesFacts.

Lemma insert_by_index_perm e l : Permutation (insert_by_index e l) (e :: l).
Proof.
  induction l as [|x l IH]; simpl; [reflexivity|].
  destruct (_ <=? _); [reflexivity|].
  rewrite IH. apply perm_swap.
Qed.

Lemma sort_by_index_perm l : Permutation (fold_right insert_by_index [] l) l.
Proof.
  induction l as [|e l IH]; simpl; [reflexivity|].
  rewrite insert_by_index_perm. now constructor.
Qed.

Lemma filter_split_perm {A : Type} (p : A -> bool) l :
  Permutation (filter p l ++ filter (fun x => negb (p x)) l) l.
Proof.
  induction l as [|x l IH]; simpl; [reflexivity|].
  destruct (p x); simpl.
  - now constructor.
  - rewrite <- Permutation_middle. now constructor.
Qed.

Lemma Object_entries_perm g : Permutation (Object_entries g) g.
Proof.
  unfold Object_entries. rewrite sort_by_index_perm. apply filter_split_perm.
Qed.

Lemma Object_entries_no_index g :
  (forall e, In e g -> is_array_index (fst e) = false) -> Object_entries g = g.
Proof.
  intros Hno. unfold Object_entries.
  induction g as [|e g IH]; [reflexivity|]. simpl.
  rewrite (Hno e (or_introl eq_refl)). simpl.
  assert (Hg : forall x, In x g -> is_array_index (fst x) = false).
  { intros x Hx. apply Hno. now right. }
  specialize (IH Hg).
  assert (H1 : filter (fun e => is_array_index (fst e)) g = []).
  { clear - Hg. induction g as [|x g IHg]; [reflexivity|]. simpl.
    rewrite (Hg x (or_introl eq_refl)). apply IHg. intros y Hy. apply Hg. now right. }
  rewrite H1 in *. simpl in *. now f_equal.
Qed.

End ObjectEntriesFacts.

(** The reducer of [grouped] builds one section per category, in the order
    in which the categories first appear on the menu (a dish without
    category falls under "Other"), each section listing its dishes in menu
    order. It throws instead exactly when some dish has a category that an
    object literal inherits, whatever those names are. *)
Theorem grouped_sections (inherited : string -> bool) (items : list MenuItem) :
  (grouped inherited items = None
   <-> exists d, In d items /\ inherited (category_of d) = true)
  /\ (forall g, grouped inherited items = Some g -> g = sections_of items).
Proof.
  split; [|apply grouped_some]. rewrite grouped_eq.
  destruct (existsb inherited (map category_of items)) eqn:E.
  - split; [intros _|reflexivity].
    apply existsb_exists in E. destruct E as [c [Hc Hi]].
    apply in_map_iff in Hc. destruct Hc as [d [<- Hd]]. eauto.
  - split; [discriminate|]. intros [d [Hd Hi]]. exfalso.
    assert (Ht : existsb inherited (map category_of items) = true).
    { apply existsb_exists. exists (category_of d). split; [now apply in_map | exact Hi]. }
    congruence.
Qed.

Lemma grouped_sections_witness :
  grouped Object_prototype [in_category "constructor" pho] = None
  /\ (forall g, grouped Object_prototype sample_menu = Some g ->
        map fst g = ["Soups"; "Drinks"; "Other"; "2"]%string).
Proof.
  destruct (grouped_sections Object_prototype [in_category "constructor" pho]) as [[_ Hnone] _].
  destruct (grouped_sections Object_prototype sample_menu) as [_ Hsome].
  split.
  - apply Hnone. exists (in_category "constructor" pho). split; [now left | reflexivity].
  - intros g Hg. now rewrite (Hsome g Hg).
Defined.

(** Grouping loses and repeats nothing: when it does not throw, no two
    sections have the same name, no section is empty, a section holds
    exactly the dishes of its category in menu order, every dish of the
    menu is in the section of its category, and the sections together hold
    as many dishes as the menu. *)
Theorem grouped_partition (inherited : string -> bool) (items : list MenuItem) (g : Groups) :
  grouped inherited items = Some g ->
  NoDup (map fst g)
  /\ (forall cat ds, In (cat, ds) g -> ds <> [] /\ ds = dishes_of cat items)
  /\ (forall d, In d items ->
        In (category_of d, dishes_of (category_of d) items) g
        /\ In d (dishes_of (category_of d) items))
  /\ List.length (List.concat (map snd g)) = List.length items.
Proof.
  intros Hg. apply grouped_some in Hg. subst g.
  split; [|split; [|split]].
  - rewrite sections_keys. apply first_seen_NoDup.
  - intros cat ds Hin. unfold sections_of in Hin. apply in_map_iff in Hin.
    destruct Hin as [c [[= <- <-] Hc]]. split; [|reflexivity].
    apply dishes_of_some. exact (proj1 (in_first_seen _ _) Hc).
  - intros d Hd. split.
    + unfold sections_of. apply in_map_iff. exists (category_of d). split; [reflexivity|].
      apply (proj2 (in_first_seen _ _)). now apply in_map.
    + unfold dishes_of. apply filter_In. split; [assumption | apply String.eqb_refl].
  - unfold sections_of. rewrite map_map. simpl.
    apply sections_length_from; [apply first_seen_NoDup|].
    intros d Hd. apply (proj2 (in_first_seen _ _)). now apply in_map.
Qed.

Lemma grouped_partition_witness :
  List.length (List.concat (map snd (sections_of sample_menu))) = 5%nat.
Proof.
  assert (Hg : grouped Object_prototype sample_menu = Some (sections_of sample_menu))
    by reflexivity.
  destruct (grouped_partition Object_prototype sample_menu _ Hg) as (_ & _ & _ & Hlen).
  exact Hlen.
Defined.

Section EntriesOrderFacts.

Lemma forallb_numeral_prefix k :
  forallb is_numeral (list_ascii_of_string k) = String.eqb (digits_prefix k) k.
Proof.
  induction k as [|c k IH]; [reflexivity|].
  cbn [list_ascii_of_string forallb digits_prefix]. rewrite is_numeral_digit.
  destruct (is_digit c); [|reflexivity].
  cbn [String.eqb]. now rewrite Ascii.eqb_refl, IH.
Qed.

Lemma forallb_numeral_digits k :
  forallb is_numeral (list_ascii_of_string k) = true -> all_digits k.
Proof.
  unfold all_digits. rewrite forallb_forall, Forall_forall.
  intros H c Hc. rewrite <- is_numeral_digit. now apply H.
Qed.

Lemma leading_zero c :
  match numeral c with Some 0%Z => false | _ => true end = negb (Ascii.eqb c "0"%char).
Proof. destruct c as [[] [] [] [] [] [] [] []]; reflexivity. Qed.

(** The code's test for an array index is the standard's. *)
Lemma array_index_eq k : is_array_index k = array_index k.
Proof.
  destruct k as [|c rest]; [reflexivity|].
  unfold is_array_index, array_index.
  rewrite forallb_numeral_prefix, leading_zero.
  replace (String.eqb rest EmptyString)
    with (match rest with EmptyString => true | _ => false end)
    by now destruct rest.
  destruct (String.eqb (digits_prefix (String c rest)) (String c rest)) eqn:E;
    [|reflexivity].
  rewrite <- forallb_numeral_prefix in E. apply forallb_numeral_digits in E.
  now rewrite number_of_digits_value.
Qed.

Lemma insert_by_index_sorted e l :
  StronglySorted (fun a b => digits_value (fst a) <= digits_value (fst b)) l ->
  StronglySorted (fun a b => digits_value (fst a) <= digits_value (fst b))
    (insert_by_index e l).
Proof.
  induction l as [|x l IH]; intros Hl; simpl.
  - repeat constructor.
  - inversion Hl as [|? ? Hl' Hx]; subst.
    destruct (digits_value (fst e) <=? digits_value (fst x)) eqn:E.
    + apply Z.leb_le in E. constructor; [exact Hl|].
      constructor; [exact E|].
      apply (Forall_impl _ (fun y (Hy : digits_value (fst x) <= digits_value (fst y)) =>
                              Z.le_trans _ _ _ E Hy) Hx).
    + apply Z.leb_gt in E. constructor; [now apply IH|].
      apply (Permutation_Forall (Permutation_sym (insert_by_index_perm e l))).
      constructor; [lia | exact Hx].
Qed.

Lemma sort_by_index_sorted l :
  StronglySorted (fun a b => digits_value (fst a) <= digits_value (fst b))
    (fold_right insert_by_index [] l).
Proof.
  induction l as [|e l IH]; simpl; [constructor | now apply insert_by_index_sorted].
Qed.

Lemma StronglySorted_on {A : Type} (R R' : A -> A -> Prop) l :
  (forall a b, In a l -> In b l -> R a b -> R' a b) ->
  StronglySorted R l -> StronglySorted R' l.
Proof.
  induction l as [|x l IH]; intros Himp Hl; [constructor|].
  inversion Hl as [|? ? Hl' Hx]; subst. constructor.
  - apply IH; [|exact Hl']. intros a b Ha Hb. apply Himp; now right.
  - rewrite Forall_forall in *. intros y Hy.
    apply Himp; [now left | now right | now apply Hx].
Qed.

Lemma array_index_digits k : array_index k = true -> all_digits k.
Proof.
  destruct k as [|c rest]; [discriminate|]. unfold array_index.
  intros H. apply andb_prop in H. destruct H as [H _].
  apply andb_prop in H. destruct H as [H _]. now apply forallb_numeral_digits.
Qed.

(** [Object.entries]: the sections named by an array index, in ascending
    order, then the others as they were. *)
Lemma Object_entries_order g :
  exists indexed : Groups,
    Object_entries g
    = indexed ++ filter (fun e => negb (array_index (fst e))) g
    /\ Permutation indexed (filter (fun e => array_index (fst e)) g)
    /\ ascending indexed.
Proof.
  exists (fold_right insert_by_index [] (filter (fun e => array_index (fst e)) g)).
  assert (Hidx : filter (fun e => is_array_index (fst e)) g
                 = filter (fun e => array_index (fst e)) g).
  { apply filter_ext. intros e. apply array_index_eq. }
  assert (Hoth : filter (fun e => negb (is_array_index (fst e))) g
                 = filter (fun e => negb (array_index (fst e))) g).
  { apply filter_ext. intros e. now rewrite array_index_eq. }
  unfold Object_entries. rewrite Hidx, Hoth.
  split; [reflexivity|]. split; [apply sort_by_index_perm|].
  unfold ascending.
  apply (StronglySorted_on
           (fun a b => digits_value (fst a) <= digits_value (fst b))); [|apply sort_by_index_sorted].
  intros a b Ha Hb Hle.
  assert (Hin : forall x,
            In x (fold_right insert_by_index [] (filter (fun e => array_index (fst e)) g)) ->
            all_digits (fst x)).
  { intros x Hx. apply (Permutation_in _ (sort_by_index_perm _)) in Hx.
    apply filter_In in Hx. now apply array_index_digits. }
  now rewrite !number_of_digits_value by now apply Hin.
Qed.

End EntriesOrderFacts.

(** The sections are rendered in the order of [Object.entries]: first the
    sections whose category is the decimal text of an array index, in
    ascending order of the numbers they write, then all other sections in
    the order of first appearance on the menu. So the sections come in the
    order of first appearance exactly as long as no category is such a
    text. *)
Theorem rendered_sections (inherited : string -> bool) (items : list MenuItem) (g : Groups) :
  grouped inherited items = Some g ->
  (exists indexed : Groups,
      Object_entries g
      = indexed ++ filter (fun e => negb (array_index (fst e))) (sections_of items)
      /\ Permutation indexed (filter (fun e => array_index (fst e)) (sections_of items))
      /\ ascending indexed)
  /\ Permutation (Object_entries g) (sections_of items)
  /\ ((forall d, In d items -> array_index (category_of d) = false) ->
      Object_entries g = sections_of items).
Proof.
  intros Hg. apply grouped_some in Hg. subst g.
  split; [apply Object_entries_order|]. split; [apply Object_entries_perm|].
  intros Hno. apply Object_entries_no_index.
  intros e He. unfold sections_of in He. apply in_map_iff in He.
  destruct He as [c [<- Hc]]. simpl.
  apply (proj1 (in_first_seen _ _)), in_map_iff in Hc.
  destruct Hc as [d [<- Hd]]. rewrite array_index_eq. now apply Hno.
Qed.

(** On the sample menu the set menu "2" comes last in menu order and is
    rendered first; a menu without such a category is rendered in menu
    order. *)
Lemma rendered_sections_witness :
  map fst (Object_entries (sections_of sample_menu))
  = ["2"; "Soups"; "Drinks"; "Other"]%string
  /\ map fst (Object_entries (sections_of [in_category "Soups" pho; tea; in_category "Soups" curry]))
     = ["Soups"; "Other"]%string.
Proof.
  split.
  - assert (Hg : grouped Object_prototype sample_menu = Some (sections_of sample_menu))
      by reflexivity.
    destruct (rendered_sections Object_prototype _ _ Hg) as [(indexed & Heq & Hperm & _) _].
    rewrite Heq.
    change (filter (fun e => array_index (fst e)) (sections_of sample_menu))
      with [("2"%string, [in_category "2" pad_thai])] in Hperm.
    apply Permutation_sym, Permutation_length_1_inv in Hperm.
    rewrite Hperm. reflexivity.
  - assert (Hg : grouped Object_prototype [in_category "Soups" pho; tea; in_category "Soups" curry]
                 = Some (sections_of [in_category "Soups" pho; tea; in_category "Soups" curry]))
      by reflexivity.
    destruct (rendered_sections Object_prototype _ _ Hg) as (_ & _ & Hsame).
    rewrite Hsame; [reflexivity|].
    intros d [<-|[<-|[<-|[]]]]; reflexivity.
Defined.

(** On the sample menu the set menu "2" comes last in menu order and is
    rendered first. *)
Example rendered_sections_numeric :
  map fst (sections_of sample_menu) = ["Soups"; "Drinks"; "Other"; "2"]%string
  /\ map fst (Object_entries (sections_of sample_menu))
     = ["2"; "Soups"; "Drinks"; "Other"]%string.
Proof. split; reflexivity. Qed.

(** ** Filter buttons, borders and badges *)

Section FilterFacts.

Lemma FilterType_eqb_eq a b : FilterType_eqb a b = true <-> a = b.
Proof. destruct a, b; simpl; split; congruence. Qed.

Lemma filter_on_toggle a b f :
  filter_on a (toggleFilter b f) = xorb (FilterType_eqb a b) (filter_on a f).
Proof. destruct a, b; simpl; try reflexivity; now destruct (_ f). Qed.

Lemma filter_on_fold a clicks : forall f,
  filter_on a (fold_left (fun prev filter => toggleFilter filter prev) clicks f)
  = xorb (Nat.odd (presses a clicks)) (filter_on a f).
Proof.
  unfold presses. induction clicks as [|b clicks IH]; intros f; simpl.
  - reflexivity.
  - rewrite IH, filter_on_toggle.
    destruct (FilterType_eqb a b); simpl.
    + rewrite Nat.odd_succ, <- Nat.negb_odd.
      destruct (Nat.odd _), (filter_on a f); reflexivity.
    + reflexivity.
Qed.

Lemma existsb_eqb_iff (t : string) ts : existsb (String.eqb t) ts = true <-> In t ts.
Proof.
  rewrite existsb_exists. split.
  - intros [x [Hin Heq]]. apply String.eqb_eq in Heq. now subst.
  - intros Hin. exists t. split; [assumption | apply String.eqb_refl].
Qed.

Lemma existsb_eqb_same_set (t : string) ts ts' :
  (forall x, In x ts <-> In x ts') ->
  existsb (String.eqb t) ts = existsb (String.eqb t) ts'.
Proof.
  intros Hsame.
  destruct (existsb (String.eqb t) ts) eqn:E, (existsb (String.eqb t) ts') eqn:E';
    try reflexivity.
  - apply existsb_eqb_iff, Hsame, existsb_eqb_iff in E. congruence.
  - apply existsb_eqb_iff, Hsame, existsb_eqb_iff in E'. congruence.
Qed.

End FilterFacts.

(** A filter is on exactly when its button was pressed an odd number of
    times, whatever else was pressed in between: pressing a button twice
    undoes it, and the buttons do not interfere with one another. *)
Theorem filter_on_iff_odd_presses (button : FilterType) (clicks : list FilterType) :
  filter_on button (filters_after clicks) = Nat.odd (presses button clicks).
Proof.
  unfold filters_after. rewrite filter_on_fold.
  destruct button, (Nat.odd _); reflexivity.
Qed.

(** Each verdict on a card listens to its own buttons only: the dimming
    to "vegetarian only", the warning and its text to the two allergy
    buttons, the spicy highlight to "highlight spicy". With no filter on,
    no card is dimmed, warned about or highlighted. *)
Theorem verdicts_are_independent (f f' : ActiveFilters) (d : MenuItem) :
  (vegetarian f = vegetarian f' -> isDimmed (card f d) = isDimmed (card f' d))
  /\ (nutAllergy f = nutAllergy f' -> noPork f = noPork f' ->
      isUnsafe (card f d) = isUnsafe (card f' d)
      /\ warningOverlay (card f d) = warningOverlay (card f' d))
  /\ (spicy f = spicy f' -> highlightSpicy (card f d) = highlightSpicy (card f' d))
  /\ isDimmed (card no_filters d) = false
  /\ isUnsafe (card no_filters d) = false
  /\ warningOverlay (card no_filters d) = None
  /\ highlightSpicy (card no_filters d) = false.
Proof.
  unfold card.
  cbn [isDimmed isUnsafe warningOverlay highlightSpicy vegetarian nutAllergy noPork spicy
       no_filters andb orb].
  split; [now intros ->|]. split; [intros -> ->; now split|].
  split; [now intros ->|]. repeat split.
Qed.

Lemma verdicts_are_independent_witness :
  isUnsafe (card (toggleFilter spicy_filter (toggleFilter nutAllergy_filter no_filters)) pad_thai)
  = isUnsafe (card (toggleFilter nutAllergy_filter no_filters) pad_thai).
Proof.
  destruct (verdicts_are_independent
              (toggleFilter spicy_filter (toggleFilter nutAllergy_filter no_filters))
              (toggleFilter nutAllergy_filter no_filters) pad_thai) as (_ & Hunsafe & _).
  apply Hunsafe; reflexivity.
Defined.

(** What a card shows is consistent. The red border and the warning text
    come together; the orange border is only for a spicy highlight on a safe
    card. A dish with the "Veg" badge is never dimmed, a nut warning is only
    shown on a dish with the "Nuts" badge and a spicy highlight only on a
    dish with the "Spicy" badge. The badges depend on which tags a dish has,
    not on their order or repetition. *)
Theorem card_presentation_consistent (f : ActiveFilters) (d : MenuItem) :
  (cardBorder (card f d) = border_red <-> warningOverlay (card f d) <> None)
  /\ (cardBorder (card f d) = border_orange
      <-> isUnsafe (card f d) = false /\ highlightSpicy (card f d) = true)
  /\ (shows Veg d -> isDimmed (card f d) = false)
  /\ (showNutWarning (card f d) = true -> shows Nuts d)
  /\ (highlightSpicy (card f d) = true -> shows Spicy d)
  /\ (forall ts ts' : list string,
        (forall t, In t ts <-> In t ts') -> renderTags (Some ts) = renderTags (Some ts')).
Proof.
  split; [|split; [|split; [|split; [|split]]]].
  - unfold cardBorder, card. cbn [isUnsafe highlightSpicy warningOverlay].
    destruct (_ || _); [split; [discriminate | reflexivity]|].
    destruct (_ && _); split; congruence.
  - unfold cardBorder. destruct (isUnsafe (card f d)), (highlightSpicy (card f d));
      split; try discriminate; try tauto; intros [? ?]; congruence.
  - unfold shows, card, hasTag, renderTags. cbn [isDimmed].
    destruct (tags d) as [ts|]; [|tauto].
    destruct (existsb (String.eqb "Vegetarian") ts), (existsb (String.eqb "Vegan") ts),
      (existsb (String.eqb "Spicy") ts), (existsb (String.eqb "Contains Nuts") ts),
      (existsb (String.eqb "Contains Seafood") ts), (vegetarian f);
      simpl; intuition discriminate.
  - unfold shows, card, hasTag, renderTags. cbn [showNutWarning].
    destruct (tags d) as [ts|]; [|now destruct (nutAllergy f)].
    destruct (existsb (String.eqb "Vegetarian") ts),
      (existsb (String.eqb "Spicy") ts), (existsb (String.eqb "Contains Nuts") ts),
      (existsb (String.eqb "Contains Seafood") ts), (nutAllergy f);
      simpl; intuition discriminate.
  - unfold shows, card, hasTag, renderTags. cbn [highlightSpicy].
    destruct (tags d) as [ts|]; [|now destruct (spicy f)].
    destruct (existsb (String.eqb "Vegetarian") ts),
      (existsb (String.eqb "Spicy") ts), (existsb (String.eqb "Contains Nuts") ts),
      (existsb (String.eqb "Contains Seafood") ts), (spicy f);
      simpl; intuition discriminate.
  - intros ts ts' Hsame. unfold renderTags.
    now rewrite !(existsb_eqb_same_set _ ts ts' Hsame).
Qed.

Lemma card_presentation_consistent_witness :
  shows Veg curry
  /\ isDimmed
       (card {| vegetarian := true; nutAllergy := true; noPork := true; spicy := true |} curry)
     = false.
Proof.
  assert (Hveg : shows Veg curry) by (cbv; tauto).
  split; [exact Hveg|].
  destruct (card_presentation_consistent
              {| vegetarian := true; nutAllergy := true; noPork := true; spicy := true |} curry)
    as (_ & _ & Hdim & _).
  exact (Hdim Hveg).
Defined.

(** A dish tagged Vegan only passes the vegetarian filter but gets no
    badge, and a dish containing pork is warned about without a badge. *)
Example vegan_and_pork_have_no_badge :
  isDimmed (card (toggleFilter vegetarian_filter no_filters) (dish "Dal" None (Some ["Vegan"]%string)))
  = false
  /\ renderTags (Some ["Vegan"; "Contains Pork"]%string) = Some [].
Proof. split; reflexivity. Qed.

(** ** The data URL of the menu photo *)

Section DataUrlFacts.

Local Open Scope string_scope.

Lemma after_literal_app lit s : after_literal lit (lit ++ s) = Some s.
Proof.
  induction lit as [|c lit IH]; simpl; [now destruct s|].
  now rewrite Ascii.eqb_refl.
Qed.

Lemma after_literal_some lit : forall s r, after_literal lit s = Some r -> s = lit ++ r.
Proof.
  induction lit as [|c lit IH]; intros s r H.
  - destruct s; simpl in H; now injection H as <-.
  - destruct s as [|c' s]; simpl in H; [discriminate|].
    destruct (Ascii.eqb_spec c c') as [<-|]; [|discriminate].
    simpl. f_equal. now apply IH.
Qed.

Lemma while_split p s : s = prefix_while p s ++ drop_while p s.
Proof.
  induction s as [|c s IH]; simpl; [reflexivity|].
  destruct (p c); simpl; congruence.
Qed.

Lemma prefix_while_all p s :
  Forall (fun c => p c = true) (list_ascii_of_string (prefix_while p s)).
Proof.
  induction s as [|c s IH]; simpl; [constructor|].
  destruct (p c) eqn:E; simpl; [now constructor | constructor].
Qed.

Lemma while_app p ls r :
  Forall (fun c => p c = true) (list_ascii_of_string ls) ->
  ~ begins_with p r ->
  prefix_while p (ls ++ r) = ls /\ drop_while p (ls ++ r) = r.
Proof.
  intros Hls Hr. induction ls as [|c ls IH]; simpl in *.
  - destruct r as [|c r]; simpl in *; [tauto|].
    destruct (p c); [tauto | split; reflexivity].
  - inversion Hls as [|? ? Hc Hrest]; subst. rewrite Hc.
    destruct (IH Hrest) as [-> ->]. split; reflexivity.
Qed.

(** The pattern matches every image data URL and splits it at the right
    places. *)
Lemma data_url_header_complete s subtype payload :
  image_data_url s subtype payload ->
  data_url_header s = Some ("image/" ++ subtype, payload).
Proof.
  intros (Hne & Hall & ->). unfold data_url_header.
  rewrite after_literal_app.
  destruct (while_app is_letter subtype (";base64," ++ payload) Hall) as [-> ->];
    [simpl; discriminate|].
  rewrite after_literal_app.
  destruct subtype; [congruence | reflexivity].
Qed.

(** A match comes from an image data URL. *)
Lemma data_url_header_sound s mime payload :
  data_url_header s = Some (mime, payload) ->
  exists subtype, mime = "image/" ++ subtype /\ image_data_url s subtype payload.
Proof.
  unfold data_url_header. intros H.
  destruct (after_literal "data:image/" s) as [r|] eqn:Er; [|discriminate].
  apply after_literal_some in Er.
  pose proof (prefix_while_all is_letter r) as Hall.
  pose proof (while_split is_letter r) as Hsplit.
  destruct (prefix_while is_letter r) as [|c ls] eqn:Ep; [discriminate|].
  destruct (after_literal ";base64," (drop_while is_letter r)) as [p|] eqn:Ed; [|discriminate].
  apply after_literal_some in Ed. injection H as <- <-.
  exists (String c ls). split; [reflexivity|].
  split; [discriminate|]. split; [exact Hall|].
  rewrite Er, Hsplit, Ed. reflexivity.
Qed.

End DataUrlFacts.

(** The photo is split correctly. When the text handed to [parseMenuImage]
    is a data URL ["data:image/<letters>;base64,<payload>"], the MIME type
    sent along is ["image/<letters>"] and the image data is the payload with
    the whole header removed. Any other text is sent unchanged, as
    ["image/jpeg"]. *)
Theorem data_url_split (base64Image : string) :
  (exists subtype payload,
      image_data_url base64Image subtype payload
      /\ mimeType base64Image = ("image/" ++ subtype)%string
      /\ cleanBase64 base64Image = payload)
  \/ ((forall subtype payload, ~ image_data_url base64Image subtype payload)
      /\ mimeType base64Image = "image/jpeg"%string
      /\ cleanBase64 base64Image = base64Image).
Proof.
  unfold mimeType, cleanBase64.
  destruct (data_url_header base64Image) as [[mime payload]|] eqn:E.
  - left. destruct (data_url_header_sound _ _ _ E) as [subtype [-> Hurl]].
    exists subtype, payload. split; [exact Hurl | split; reflexivity].
  - right. split; [|split; reflexivity].
    intros subtype payload Hurl.
    apply data_url_header_complete in Hurl. congruence.
Qed.

(** A PNG is recognised; an SVG, whose subtype has a [+], is not, and goes
    out with its header as JPEG data. *)
Example data_url_examples :
  mimeType "data:image/png;base64,iVBOR" = "image/png"%string
  /\ cleanBase64 "data:image/png;base64,iVBOR" = "iVBOR"%string
  /\ mimeType "data:image/svg+xml;base64,PHN2" = "image/jpeg"%string
  /\ cleanBase64 "data:image/svg+xml;base64,PHN2" = "data:image/svg+xml;base64,PHN2"%string.
Proof. repeat split. Qed.

(** ** The links of a dish search *)

Section SourceFacts.

Lemma findIndex_app {A : Type} (p : A -> bool) pre l :
  findIndex p (pre ++ l)
  = match findIndex p pre with
    | Some j => Some j
    | None => option_map (fun j => (List.length pre + j)%nat) (findIndex p l)
    end.
Proof.
  induction pre as [|x pre IH]; simpl.
  - destruct (findIndex p l); reflexivity.
  - destruct (p x); [reflexivity|]. rewrite IH.
    destruct (findIndex p pre); [reflexivity|].
    destruct (findIndex p l); reflexivity.
Qed.

Lemma findIndex_lt {A : Type} (p : A -> bool) l j :
  findIndex p l = Some j -> (j < List.length l)%nat.
Proof.
  revert j. induction l as [|x l IH]; intros j; simpl; [discriminate|].
  destruct (p x); [intros [= <-]; lia|].
  destruct (findIndex p l) as [k|]; [|discriminate].
  intros [= <-]. specialize (IH k eq_refl). lia.
Qed.

Lemma findIndex_none {A : Type} (p : A -> bool) l :
  findIndex p l = None <-> existsb p l = false.
Proof.
  induction l as [|x l IH]; simpl; [tauto|].
  destruct (p x); simpl; [split; discriminate|].
  rewrite <- IH. destruct (findIndex p l); simpl; split; congruence.
Qed.

(** The test of [uniqueSources] at position [length pre]: no earlier source
    has the same address. *)
Lemma first_index_test pre v post :
  match findIndex (fun t => String.eqb (uri t) (uri v)) (pre ++ v :: post) with
  | Some j => Nat.eqb j (List.length pre)
  | None => false
  end = negb (has_uri (uri v) pre).
Proof.
  rewrite findIndex_app. unfold has_uri.
  destruct (findIndex (fun t => String.eqb (uri t) (uri v)) pre) as [j|] eqn:E.
  - pose proof (findIndex_lt _ _ _ E) as Hlt.
    assert (Hex : existsb (fun t => String.eqb (uri t) (uri v)) pre = true).
    { destruct (existsb _ pre) eqn:Ex; [reflexivity|].
      apply findIndex_none in Ex. congruence. }
    rewrite Hex. simpl. apply Nat.eqb_neq. lia.
  - apply findIndex_none in E. rewrite E. simpl.
    rewrite String.eqb_refl. simpl. apply Nat.eqb_eq. lia.
Qed.

Lemma filter_filter {A : Type} (p q : A -> bool) l :
  filter p (filter q l) = filter (fun x => q x && p x) l.
Proof.
  induction l as [|x l IH]; simpl; [reflexivity|].
  destruct (q x); simpl; [destruct (p x)|]; now rewrite IH.
Qed.

Lemma has_uri_snoc u pre v :
  has_uri u (pre ++ [v]) = has_uri u pre || String.eqb (uri v) u.
Proof. unfold has_uri. rewrite existsb_app. simpl. now rewrite orb_false_r. Qed.

Lemma filter_from_first_of_each (a : list GroundingSource) post : forall pre,
  a = pre ++ post ->
  filter_from
    (fun v i =>
       match findIndex (fun t => String.eqb (uri t) (uri v)) a with
       | Some j => Nat.eqb j i
       | None => false
       end)
    (List.length pre) post
  = filter (fun x => negb (has_uri (uri x) pre)) (first_of_each post).
Proof.
  induction post as [|v post IH]; intros pre Ha; [reflexivity|].
  cbn [filter_from first_of_each filter].
  assert (Ha' : a = (pre ++ [v]) ++ post) by now rewrite <- app_assoc.
  specialize (IH (pre ++ [v]) Ha'). rewrite length_app, Nat.add_1_r in IH.
  rewrite IH. rewrite Ha at 1. rewrite first_index_test.
  rewrite filter_filter.
  assert (Hext : filter (fun x => negb (has_uri (uri x) (pre ++ [v]))) (first_of_each post)
                 = filter (fun x => negb (String.eqb (uri x) (uri v))
                                    && negb (has_uri (uri x) pre)) (first_of_each post)).
  { apply filter_ext. intros x. rewrite has_uri_snoc, (String.eqb_sym (uri v)).
    destruct (has_uri (uri x) pre), (String.eqb (uri x) (uri v)); reflexivity. }
  rewrite Hext. reflexivity.
Qed.

Lemma filter_all {A : Type} (p : A -> bool) l :
  (forall x, In x l -> p x = true) -> filter p l = l.
Proof.
  induction l as [|x l IH]; simpl; intros H; [reflexivity|].
  rewrite (H x (or_introl eq_refl)). f_equal. apply IH. intros y Hy. apply H. now right.
Qed.

Lemma uniqueSources_eq sources : uniqueSources sources = first_of_each sources.
Proof.
  unfold uniqueSources.
  pose proof (filter_from_first_of_each sources sources [] eq_refl) as H.
  cbn [List.length] in H. rewrite H.
  now apply filter_all.
Qed.

Lemma in_first_of_each u l :
  In u (map uri (first_of_each l)) <-> In u (map uri l).
Proof.
  induction l as [|v l IH]; simpl; [tauto|].
  rewrite <- IH, !in_map_iff. split.
  - intros [Hu|[x [Hx Hin]]]; [now left|].
    apply filter_In in Hin. right. exists x. tauto.
  - intros [Hu|[x [Hx Hin]]]; [now left|].
    destruct (String.eqb_spec (uri x) (uri v)) as [Heq|Hne].
    + left. congruence.
    + right. exists x. split; [assumption|]. apply filter_In. split; [assumption|].
      now apply negb_true_iff, String.eqb_neq.
Qed.

Lemma NoDup_map_filter {A B : Type} (f : A -> B) (p : A -> bool) l :
  NoDup (map f l) -> NoDup (map f (filter p l)).
Proof.
  induction l as [|x l IH]; simpl; intros Hnd; [constructor|].
  inversion Hnd as [|? ? Hnin Hnd']; subst.
  destruct (p x); simpl; [|now apply IH].
  constructor; [|now apply IH].
  intros Hin. apply Hnin. apply in_map_iff in Hin. destruct Hin as [y [Hy Hin]].
  apply filter_In in Hin. apply in_map_iff. exists y. tauto.
Qed.

Lemma first_of_each_NoDup l : NoDup (map uri (first_of_each l)).
Proof.
  induction l as [|v l IH]; simpl; constructor.
  - rewrite in_map_iff. intros [x [Hx Hin]]. apply filter_In in Hin.
    destruct Hin as [_ Hne]. apply negb_true_iff, String.eqb_neq in Hne. congruence.
  - now apply NoDup_map_filter.
Qed.

Lemma first_of_each_fixed l : NoDup (map uri l) -> first_of_each l = l.
Proof.
  induction l as [|v l IH]; simpl; intros Hnd; [reflexivity|].
  inversion Hnd as [|? ? Hnin Hnd']; subst. rewrite IH by assumption. f_equal.
  apply filter_all. intros x Hx. apply negb_true_iff, String.eqb_neq.
  intros Heq. apply Hnin. rewrite <- Heq. now apply in_map.
Qed.

Lemma push_sources_from chunks : forall acc,
  fold_left
    (fun sources chunk =>
       match chunk with
       | Some w =>
           sources ++ [{| title := or_text "Source" (web_title w);
                          uri := or_text "#" (web_uri w) |}]
       | None => sources
       end)
    chunks acc
  = acc ++ push_sources chunks.
Proof.
  unfold push_sources.
  induction chunks as [|c chunks IH]; intros acc; simpl; [now rewrite app_nil_r|].
  rewrite IH. destruct c as [w|]; [|reflexivity].
  rewrite (IH [_]). now rewrite <- app_assoc.
Qed.

Lemma or_text_nonempty dflt o : dflt <> EmptyString -> or_text dflt o <> EmptyString.
Proof. destruct o as [[|c s]|]; simpl; intros H; try assumption; discriminate. Qed.

Lemma push_sources_nonempty chunks x :
  In x (push_sources chunks) -> title x <> EmptyString /\ uri x <> EmptyString.
Proof.
  induction chunks as [|c chunks IH]; [intros []|].
  unfold push_sources. simpl. rewrite push_sources_from.
  destruct c as [w|]; [|exact IH].
  simpl. intros [<-|Hin]; [|now apply IH].
  split; apply or_text_nonempty; discriminate.
Qed.

End SourceFacts.

(** De-duplication keeps the first source of every address and nothing
    else, in the original order: no two sources that remain share an
    address, every address that came in is still there, and de-duplicating
    again changes nothing. *)
Theorem unique_sources_first_of_each (sources : list GroundingSource) :
  uniqueSources sources = first_of_each sources
  /\ NoDup (map uri (uniqueSources sources))
  /\ (forall u, In u (map uri (uniqueSources sources)) <-> In u (map uri sources))
  /\ uniqueSources (uniqueSources sources) = uniqueSources sources.
Proof.
  rewrite !uniqueSources_eq. split; [reflexivity|].
  split; [apply first_of_each_NoDup|]. split; [intros u; apply in_first_of_each|].
  apply first_of_each_fixed, first_of_each_NoDup.
Qed.

(** What the dish detail gets as links: at most five, no two with the same
    address, each one built from a web chunk of the search, none with an
    empty title or address; and all of them when at most five addresses are
    distinct. *)
Theorem image_links_sound (chunks : list (option Web)) :
  (List.length (imageLinks chunks) <= 5)%nat
  /\ NoDup (map uri (imageLinks chunks))
  /\ (forall x, In x (imageLinks chunks) ->
        In x (push_sources chunks) /\ title x <> EmptyString /\ uri x <> EmptyString)
  /\ ((List.length (first_of_each (push_sources chunks)) <= 5)%nat ->
      imageLinks chunks = first_of_each (push_sources chunks)).
Proof.
  unfold imageLinks. rewrite uniqueSources_eq.
  split; [apply firstn_le_length|]. split.
  - pose proof (first_of_each_NoDup (push_sources chunks)) as Hnd.
    rewrite <- (firstn_skipn 5 (first_of_each (push_sources chunks))), map_app in Hnd.
    now apply NoDup_app_remove_r in Hnd.
  - split.
    + intros x Hx.
      assert (Hx' : In x (first_of_each (push_sources chunks))).
      { rewrite <- (firstn_skipn 5 (first_of_each (push_sources chunks))).
        apply in_or_app. now left. }
      assert (Hin : In x (push_sources chunks)).
      { clear - Hx'. induction (push_sources chunks) as [|v l IH]; [destruct Hx'|].
        simpl in Hx'. destruct Hx' as [<-|Hx']; [now left|].
        apply filter_In in Hx'. right. now apply IH. }
      split; [exact Hin | now apply (push_sources_nonempty chunks)].
    + intros Hlen. now apply firstn_all2.
Qed.

Lemma image_links_sound_witness :
  imageLinks [Some {| web_title := Some "Yelp"; web_uri := Some "https://a" |}; None;
              Some {| web_title := None; web_uri := Some "https://a" |};
              Some {| web_title := Some ""; web_uri := None |}]%string
  = [{| title := "Yelp"; uri := "https://a" |}; {| title := "Source"; uri := "#" |}]%string.
Proof.
  destruct (image_links_sound
              [Some {| web_title := Some "Yelp"; web_uri := Some "https://a" |}; None;
               Some {| web_title := None; web_uri := Some "https://a" |};
               Some {| web_title := Some ""; web_uri := None |}]%string) as (_ & _ & _ & Hall).
  rewrite Hall; [reflexivity | simpl; lia].
Defined.

(** ** The subtotal under adjustments *)

Section SubtotalFacts.

Local Open Scope Q_scope.

Variable menuItems : list MenuItem.

Lemma line_value_unit e :
  line_value menuItems e == unit_price (fst e) menuItems * inject_Z (snd e).
Proof.
  unfold line_value, unit_price.
  destruct (find_item (fst e) menuItems) as [it|]; [|ring].
  destruct (price it); [reflexivity | ring].
Qed.

Lemma sum_of_lines_cons e m :
  sum_of_lines (e :: m) menuItems == line_value menuItems e + sum_of_lines m menuItems.
Proof. reflexivity. Qed.

Lemma cartTotal_sum order : cartTotal order menuItems == sum_of_lines order menuItems.
Proof.
  unfold cartTotal, sum_of_lines, JsMap.entries. rewrite fold_add_line. ring.
Qed.

Lemma quantity_head k v m : inject_Z (quantity k ((k, v) :: m)) = inject_Z v.
Proof.
  unfold quantity. simpl. rewrite String.eqb_refl. simpl.
  now destruct (Z.eqb_spec v 0) as [->|].
Qed.

Lemma quantity_tail k k' v m : k' <> k -> quantity k ((k', v) :: m) = quantity k m.
Proof.
  intros Hne. unfold quantity. simpl.
  destruct (String.eqb_spec k' k); [congruence | reflexivity].
Qed.

Lemma quantity_absent k m : ~ In k (JsMap.keys m) -> quantity k m = 0%Z.
Proof. intros Hnin. unfold quantity. apply get_none_iff in Hnin. now rewrite Hnin. Qed.

Lemma sum_of_lines_set k v m :
  JsMap.wf m ->
  sum_of_lines (JsMap.set k v m) menuItems
  == sum_of_lines m menuItems
     + unit_price k menuItems * (inject_Z v - inject_Z (quantity k m)).
Proof.
  unfold JsMap.wf. induction m as [|[k' v'] m IH]; intros Hwf.
  - simpl JsMap.set. rewrite sum_of_lines_cons, line_value_unit. simpl.
    unfold sum_of_lines. simpl. change (quantity k []) with 0%Z. ring.
  - inversion Hwf as [|? ? Hnin Hnd]; subst. simpl JsMap.set.
    destruct (String.eqb_spec k' k) as [->|Hne].
    + rewrite !sum_of_lines_cons, !line_value_unit, quantity_head. simpl. ring.
    + rewrite !sum_of_lines_cons, IH, quantity_tail by assumption. ring.
Qed.

Lemma sum_of_lines_delete k m :
  JsMap.wf m ->
  sum_of_lines (JsMap.delete k m) menuItems
  == sum_of_lines m menuItems - unit_price k menuItems * inject_Z (quantity k m).
Proof.
  unfold JsMap.wf. induction m as [|[k' v'] m IH]; intros Hwf.
  - simpl. unfold sum_of_lines. simpl. change (quantity k []) with 0%Z. ring.
  - inversion Hwf as [|? ? Hnin Hnd]; subst. simpl JsMap.delete.
    destruct (String.eqb_spec k' k) as [->|Hne].
    + rewrite IH, sum_of_lines_cons, line_value_unit, quantity_head by assumption.
      rewrite (quantity_absent k m Hnin). simpl. ring.
    + rewrite !sum_of_lines_cons, IH, quantity_tail by assumption. ring.
Qed.

Lemma digit_value_nonneg c : is_digit c = true -> (0 <= digit_value c)%Z.
Proof.
  unfold is_digit, digit_value. intros H. apply andb_prop in H. destruct H as [H _].
  apply N.leb_le in H. lia.
Qed.

Lemma digits_value_from l : forall acc,
  Forall (fun c => is_digit c = true) l -> (0 <= acc)%Z ->
  (0 <= fold_left (fun acc c => 10 * acc + digit_value c) l acc)%Z.
Proof.
  induction l as [|c l IH]; cbn [fold_left]; intros acc Hl Hacc; [assumption|].
  inversion Hl as [|? ? Hc Hrest]; subst.
  apply IH; [assumption|]. pose proof (digit_value_nonneg c Hc). lia.
Qed.

Lemma digits_value_prefix_nonneg s : (0 <= digits_value (digits_prefix s))%Z.
Proof.
  unfold digits_value. apply digits_value_from; [apply digits_prefix_all | lia].
Qed.

Lemma parseFloat_nonneg s : 0 <= parseFloat s.
Proof.
  unfold parseFloat.
  pose proof (digits_value_prefix_nonneg s) as Hip.
  assert (Hfp : forall r, 0 <= Qmake (digits_value (digits_prefix r))
                               (Z.to_pos (10 ^ Z.of_nat (String.length (digits_prefix r))))).
  { intros r. pose proof (digits_value_prefix_nonneg r).
    unfold Qle. cbn [Qnum Qden]. rewrite Z.mul_0_l, Z.mul_1_r. assumption. }
  assert (Hi : 0 <= inject_Z (digits_value (digits_prefix s))).
  { unfold Qle, inject_Z. cbn [Qnum Qden]. rewrite Z.mul_0_l, Z.mul_1_r. assumption. }
  destruct (drop_digits s) as [|c rest].
  - rewrite <- (Qplus_0_r 0). apply Qplus_le_compat; [exact Hi | discriminate].
  - destruct (is_dot c).
    + rewrite <- (Qplus_0_r 0). apply Qplus_le_compat; [exact Hi | apply Hfp].
    + rewrite <- (Qplus_0_r 0). apply Qplus_le_compat; [exact Hi | discriminate].
Qed.

Lemma price_value_nonneg p : 0 <= price_value p.
Proof.
  unfold price_value. destruct (regex_match p); [apply parseFloat_nonneg | apply Qle_refl].
Qed.

Lemma unit_price_nonneg k : 0 <= unit_price k menuItems.
Proof.
  unfold unit_price. destruct (find_item k menuItems) as [it|]; [|apply Qle_refl].
  destruct (price it); [apply price_value_nonneg | apply Qle_refl].
Qed.

Lemma sum_of_lines_nonneg m :
  positive_entries m -> 0 <= sum_of_lines m menuItems.
Proof.
  induction 1 as [|[k v] m Hv Hm IH]; [apply Qle_refl|].
  rewrite sum_of_lines_cons, line_value_unit. simpl in *.
  rewrite <- (Qplus_0_r 0). apply Qplus_le_compat; [|exact IH].
  apply Qmult_le_0_compat; [apply unit_price_nonneg|].
  unfold Qle, inject_Z. cbn [Qnum Qden]. lia.
Qed.

End SubtotalFacts.

(** An adjustment moves the estimated subtotal by the price of the dish
    times the change of its quantity, the new quantity being floored at
    zero; a dish that is not on the menu or has no price moves nothing. *)
Theorem adjust_subtotal (menuItems : list MenuItem) (name : string) (delta : Z) (m : JsMap.t) :
  JsMap.wf m ->
  (cartTotal (handleUpdateOrder name delta m) menuItems
   == cartTotal m menuItems
      + unit_price name menuItems
        * (inject_Z (Z.max 0 (quantity name m + delta)) - inject_Z (quantity name m)))%Q.
Proof.
  intros Hwf. rewrite !cartTotal_sum, handleUpdateOrder_eq by assumption.
  destruct (Z.leb_spec (quantity name m + delta) 0) as [Hle|Hgt].
  - rewrite sum_of_lines_delete by assumption.
    replace (Z.max 0 (quantity name m + delta)) with 0%Z by lia.
    change (inject_Z 0) with 0%Q. ring.
  - rewrite sum_of_lines_set by assumption.
    replace (Z.max 0 (quantity name m + delta)) with (quantity name m + delta)%Z by lia.
    reflexivity.
Qed.

Lemma adjust_subtotal_witness :
  (cartTotal (handleUpdateOrder "Pho" 1%Z [("Pho", 2%Z); ("Tea", 1%Z)]%string) [pho; tea]
   == cartTotal [("Pho", 2%Z); ("Tea", 1%Z)]%string [pho; tea] + (25 # 2) * (3 - 2))%Q.
Proof.
  assert (Hwf : JsMap.wf [("Pho", 2); ("Tea", 1)]%string).
  { repeat constructor; simpl; intuition discriminate. }
  eapply Qeq_trans; [exact (adjust_subtotal [pho; tea] "Pho" 1 _ Hwf)|].
  vm_compute. reflexivity.
Defined.

(** The estimated subtotal is never negative while the ledger holds positive
    quantities only, which it does in every state the application reaches
    from an empty slot. *)
Theorem subtotal_nonneg (menuItems : list MenuItem) (m : JsMap.t) :
  positive_entries m -> (0 <= cartTotal m menuItems)%Q.
Proof.
  intros Hpos. rewrite cartTotal_sum. now apply sum_of_lines_nonneg.
Qed.

Lemma subtotal_nonneg_witness :
  (0 <= cartTotal [("Pho", 2%Z); ("Tea", 1%Z)]%string [pho; tea])%Q.
Proof.
  apply subtotal_nonneg. repeat constructor.
Defined.

(** ** The currency symbol is always a symbol *)

Section SymbolFacts.

Lemma strip_price_clean p :
  Forall (fun c => is_digit c || is_dot c || is_space c = false)
    (list_ascii_of_string (strip_price p)).
Proof.
  induction p as [|c p IH]; simpl; [constructor|].
  destruct (is_digit c || is_dot c || is_space c) eqn:E; simpl; [exact IH|].
  now constructor.
Qed.

Lemma or_dollar_symbol_like (o : option string) :
  symbol_like (or_dollar (option_map strip_price o)).
Proof.
  destruct o as [p|]; simpl.
  - pose proof (strip_price_clean p) as Hclean.
    destruct (strip_price p) as [|c s]; simpl.
    + split; [discriminate | repeat constructor].
    + split; [discriminate | exact Hclean].
  - split; [discriminate | repeat constructor].
Qed.

End SymbolFacts.

(** Whatever the menu and the ledger, the currency symbol of the order
    summary and the one of the footer are never empty and never contain a
    digit, a point or a space: a price that is only a number, a dish without
    price and an empty order all give ["$"]. *)
Theorem currency_symbol_clean (order : JsMap.t) (menuItems : list MenuItem) :
  symbol_like (currencySymbol order menuItems)
  /\ symbol_like (App_currencySymbol menuItems).
Proof.
  split.
  - unfold currencySymbol.
    destruct (cartItems order menuItems) as [|i rest];
      [apply (or_dollar_symbol_like None)|].
    destruct (item i) as [it|];
      [apply or_dollar_symbol_like | apply (or_dollar_symbol_like None)].
  - unfold App_currencySymbol.
    destruct (find (fun m => truthy (price m)) menuItems) as [it|];
      [apply or_dollar_symbol_like | apply (or_dollar_symbol_like None)].
Qed.

(** ** A parsed menu replaces the session *)

(** When a scan succeeds the new dishes are installed, the ledger is emptied
    whatever it held, even entries for dishes of the same name, so that no
    dish has a quantity and nothing is counted; the restaurant name is the
    parsed one, or "Unknown Restaurant", and never empty; the location is
    kept from before. With at least one dish, the slot then holds exactly the
    new session. *)
Theorem scan_replaces_session (st : App.t) (result : App.MenuAnalysisResult) :
  App.menuItems (App.step (App.MenuParsed result) st) = App.items result
  /\ App.order (App.step (App.MenuParsed result) st) = []
  /\ (forall name, quantity name (App.order (App.step (App.MenuParsed result) st)) = 0)
  /\ totalItems (App.order (App.step (App.MenuParsed result) st)) = 0
  /\ App.restaurantName (App.step (App.MenuParsed result) st) <> EmptyString
  /\ App.restaurantLocation (App.step (App.MenuParsed result) st) = App.restaurantLocation st
  /\ App.appState (App.step (App.MenuParsed result) st) = App.MENU_VIEW
  /\ (App.items result <> [] ->
      App.localStorage (App.step (App.MenuParsed result) st)
      = Some (App.JsonText (App.JObject
          {| App.menuItems_member := Some (App.Dishes (App.items result));
             App.restaurantName_member :=
               Some (App.or_unknown (App.result_restaurantName result));
             App.restaurantLocation_member := Some (App.restaurantLocation st);
             App.order_member := Some (App.OrderEntries []) |}))).
Proof.
  unfold App.step, App.exec, App.handler, App.sets_dependency, App.save_effect,
    App.get_state, App.bind, App.setOrder, App.setMenuItems, App.setRestaurantName,
    App.setAppState.
  cbn [fst snd App.menuItems_state].
  destruct (App.items result) as [|d ds] eqn:E; simpl.
  - repeat split; try reflexivity; try congruence.
    destruct (App.result_restaurantName result); discriminate.
  - repeat split; try reflexivity.
    destruct (App.result_restaurantName result); discriminate.
Qed.

Lemma scan_replaces_session_witness :
  App.localStorage
    (App.step (App.MenuParsed {| App.result_restaurantName := ""; App.items := [tea] |})
       pho_session)
  = Some (App.JsonText (App.JObject
      {| App.menuItems_member := Some (App.Dishes [tea]);
         App.restaurantName_member := Some "Unknown Restaurant"%string;
         App.restaurantLocation_member := Some ""%string;
         App.order_member := Some (App.OrderEntries []) |})).
Proof.
  destruct (scan_replaces_session pho_session
              {| App.result_restaurantName := ""; App.items := [tea] |})
    as (_ & _ & _ & _ & _ & _ & _ & Hslot).
  apply Hslot. discriminate.
Defined.
